(** * csim: an LRU set-associative cache simulator (src/csim.c)

    A shallow embedding of [csim.c] and the properties of its cache model
    ([init_cache], [access_data]) and trace replayer ([replay_trace], [main]).

    Conventions of the embedding.
    - The target is LP64: [int] is 32 bits, [unsigned long] and
      [unsigned long long] are 64 bits (so [ULONG_MAX] = 2^64 - 1).
    - The file-scope variables of [csim.c] are the fields of one record,
      [globals], which every function receives and returns.
    - Every function returns [option]: [None] stands for an execution that the
      C standard leaves undefined (a shift by a negative count or by at least
      the width of the type, overflow of a signed [int], an array read or
      write outside the allocated and initialised lines).
    - [malloc] is taken to succeed, and the trace file to open; the list of
      records handed to [replay_trace] is the sequence of triples that the
      successive [fscanf] calls convert before the first one that fails.
    - The option loop of [main] receives the list of what the successive
      [getopt] calls return; [atoi] is a parameter.
    - [Allocation] follows [init_cache] and [free_cache] on a heap of named
      blocks, apart from the contents of the table, with a [malloc] that
      grants every request; [Storage] does so with a [malloc] that may
      return NULL. *)

From Stdlib Require Import ZArith Lia Bool Ascii.
From Stdlib Require String.
From stdpp Require Import base option list.

Local Open Scope Z_scope.

(** ** Machine arithmetic *)

Module CInt.

Definition INT_MAX : Z := 2 ^ 31 - 1.
Definition INT_MIN : Z := - 2 ^ 31.
Definition ULONG_MAX : Z := 2 ^ 64 - 1.

(** [x + y] and [x++] on [int]: undefined when the result is not an [int]. *)
Definition int_add (x y : Z) : option Z :=
  if bool_decide (INT_MIN ≤ x + y ≤ INT_MAX) then Some (x + y) else None.

Definition int_incr (x : Z) : option Z := int_add x 1.

(** [1 << shift] on [int]: defined when the count is in [0, 32) and the
    result is representable. *)
Definition int_shl1 (shift : Z) : option Z :=
  if bool_decide (0 ≤ shift < 32 ∧ Z.shiftl 1 shift ≤ INT_MAX)
  then Some (Z.shiftl 1 shift) else None.

(** [x >> n] on [unsigned long long], [n] an [int]. *)
Definition ull_shr (x n : Z) : option Z :=
  if bool_decide (0 ≤ n < 64) then Some (Z.shiftr x n) else None.

(** [x++] on [unsigned long long] wraps around. *)
Definition ull_incr (x : Z) : Z := (x + 1) mod 2 ^ 64.

(** Conversion of an [int] to [unsigned long long]. *)
Definition ull_of_int (x : Z) : Z := x mod 2 ^ 64.

End CInt.
Import CInt.

(** [#define pow(two, shift) (1 << (shift))]: the first argument is dropped
    and the shift is done on the [int] constant 1. *)
Definition pow (two shift : Z) : option Z := int_shl1 shift.

(** ** Data *)

(** [cache_entry_t]. [is_valid] is a [char] that only ever holds 0 or 1 and
    is only ever tested for being non-zero. A [cache_group_t] is a
    [list cache_entry], a [cache_table_t] a list of those. *)
Record cache_entry := CacheEntry {
  is_valid : bool;
  tag_value : Z;
  lru_counter : Z
}.

(** The file-scope variables. *)
Record globals := Globals {
  set_index_bits : Z;
  block_offset_bits : Z;
  associativity : Z;
  number_of_sets : Z;
  block_size_bytes : Z;
  total_misses : Z;
  total_hits : Z;
  total_evictions : Z;
  global_lru_counter : Z;
  cache_memory : list (list cache_entry);
  set_index_mask : Z
}.

Definition with_cache (g : globals) (c : list (list cache_entry)) (mask : Z) : globals :=
  {| set_index_bits := set_index_bits g; block_offset_bits := block_offset_bits g;
     associativity := associativity g;
     number_of_sets := number_of_sets g; block_size_bytes := block_size_bytes g;
     total_misses := total_misses g; total_hits := total_hits g;
     total_evictions := total_evictions g;
     global_lru_counter := global_lru_counter g;
     cache_memory := c; set_index_mask := mask |}.

(** The state after a classified access: new counters, clock and table. *)
Definition with_access (g : globals) (misses hits evictions : Z)
    (c : list (list cache_entry)) : globals :=
  {| set_index_bits := set_index_bits g; block_offset_bits := block_offset_bits g;
     associativity := associativity g;
     number_of_sets := number_of_sets g; block_size_bytes := block_size_bytes g;
     total_misses := misses; total_hits := hits; total_evictions := evictions;
     global_lru_counter := ull_incr (global_lru_counter g);
     cache_memory := c; set_index_mask := set_index_mask g |}.

(** ** init_cache *)

Definition empty_line : cache_entry :=
  {| is_valid := false; tag_value := 0; lru_counter := 0 |}.

(** The two nested loops allocate [number_of_sets] groups of [associativity]
    lines each and zero every line; a non-positive bound runs no iteration. *)
Definition init_cache (g : globals) : option globals :=
  let table :=
    replicate (Z.to_nat (number_of_sets g))
              (replicate (Z.to_nat (associativity g)) empty_line) in
  p ← pow 2 (set_index_bits g);
  m ← int_add p (-1);
  Some (with_cache g table (ull_of_int m)).

(** ** access_data *)

(** The first loop: [Some (Some i)] when line [i] is the first valid line
    holding the tag, [Some None] when the loop runs to its bound. *)
Fixpoint hit_loop (current_cache_group : list cache_entry) (tag : Z)
    (iterations : nat) (line_index : nat) : option (option nat) :=
  match iterations with
  | O => Some None
  | S k =>
      e ← current_cache_group !! line_index;
      if is_valid e && (tag_value e =? tag)
      then Some (Some line_index)
      else hit_loop current_cache_group tag k (S line_index)
  end.

(** The second loop, returning the final [(min_lru_value, lru_line_index)]. *)
Fixpoint lru_loop (current_cache_group : list cache_entry)
    (iterations : nat) (line_index : nat)
    (min_lru_value : Z) (lru_line_index : nat) : option (Z * nat) :=
  match iterations with
  | O => Some (min_lru_value, lru_line_index)
  | S k =>
      e ← current_cache_group !! line_index;
      if min_lru_value >? lru_counter e
      then lru_loop current_cache_group k (S line_index) (lru_counter e) line_index
      else lru_loop current_cache_group k (S line_index) min_lru_value lru_line_index
  end.

Definition touch (e : cache_entry) (clock : Z) : cache_entry :=
  {| is_valid := is_valid e; tag_value := tag_value e; lru_counter := clock |}.

Definition fill (tag clock : Z) : cache_entry :=
  {| is_valid := true; tag_value := tag; lru_counter := clock |}.

Definition access_data (g : globals) (address : Z) : option globals :=
  shifted ← ull_shr address (block_offset_bits g);
  let set_index := Z.land shifted (set_index_mask g) in
  tag_shift ← int_add (set_index_bits g) (block_offset_bits g);
  tag ← ull_shr address tag_shift;
  current_cache_group ← cache_memory g !! Z.to_nat set_index;
  found ← hit_loop current_cache_group tag (Z.to_nat (associativity g)) 0;
  match found with
  | Some line_index =>
      e ← current_cache_group !! line_index;
      hits ← int_incr (total_hits g);
      Some (with_access g (total_misses g) hits (total_evictions g)
              (<[Z.to_nat set_index :=
                   <[line_index := touch e (global_lru_counter g)]> current_cache_group]>
                 (cache_memory g)))
  | None =>
      misses ← int_incr (total_misses g);
      '(_, lru_line_index) ← lru_loop current_cache_group
                               (Z.to_nat (associativity g)) 0 ULONG_MAX 0;
      victim ← current_cache_group !! lru_line_index;
      evictions ← (if is_valid victim then int_incr (total_evictions g)
                   else Some (total_evictions g));
      Some (with_access g misses (total_hits g) evictions
              (<[Z.to_nat set_index :=
                   <[lru_line_index := fill tag (global_lru_counter g)]> current_cache_group]>
                 (cache_memory g)))
  end.

(** ** replay_trace *)

(** One successful [fscanf(" %c %llx,%d", &command, &address, &size)]. *)
Record trace_record := TraceRecord {
  command : ascii;
  address : Z;
  size : Z
}.

(** The body of the [while] loop: the [switch] on [command]. *)
Definition replay_record (g : globals) (r : trace_record) : option globals :=
  match command r with
  | "L"%char => access_data g (address r)
  | "S"%char => access_data g (address r)
  | "M"%char => g1 ← access_data g (address r); access_data g1 (address r)
  | _ => Some g
  end.

Fixpoint replay_trace (g : globals) (records : list trace_record) : option globals :=
  match records with
  | [] => Some g
  | r :: rest => g1 ← replay_record g r; replay_trace g1 rest
  end.

(** ** main *)

(** What a run of the program leaves behind: the message of line 185 and
    [exit(1)]; the call of [printSummary] and [return 0]; or an execution
    that C leaves undefined. *)
Inductive outcome :=
| MissingArgument
| Summary (hits misses evictions : Z)
| Undefined.

(** Lines 190 to 193: the derived sizes, then [init_cache]. The counters and
    the clock still hold their initialisers (0, 0, 0 and 1). A defined
    [pow] is between 1 and 2^30, so the casts to [unsigned int] and the
    stores into [int] variables keep its value. *)
Definition configure (s E b : Z) : option globals :=
  sets ← pow 2 s;
  block ← pow 2 b;
  init_cache
    {| set_index_bits := s; block_offset_bits := b; associativity := E;
       number_of_sets := sets; block_size_bytes := block;
       total_misses := 0; total_hits := 0; total_evictions := 0;
       global_lru_counter := 1;
       cache_memory := []; set_index_mask := 0 |}.

(** The test of line 184. [trace_file] is [None] while [trace_filename] is
    still [NULL]. *)
Definition missing_argument (s E b : Z) (trace_file : option (list trace_record)) : bool :=
  (s =? 0) || (E =? 0) || (b =? 0) || bool_decide (trace_file = None :> option _).

(** [main] after the [getopt] loop has stored [s], [E], [b] (the [atoi] of the
    option arguments, 0 for an option that was not given) and the name of the
    trace file. [verbose_mode] is never read; [free_cache] changes no counter. *)
Definition main (s E b : Z) (trace_file : option (list trace_record)) : outcome :=
  if missing_argument s E b trace_file then MissingArgument
  else
    match records ← trace_file; g ← configure s E b; replay_trace g records with
    | Some g => Summary (total_hits g) (total_misses g) (total_evictions g)
    | None => Undefined
    end.

(** Records for the examples: L, S, M and an instruction fetch. *)
Definition Lrec (a : Z) : trace_record := TraceRecord "L" a 1.
Definition Srec (a : Z) : trace_record := TraceRecord "S" a 1.
Definition Mrec (a : Z) : trace_record := TraceRecord "M" a 1.
Definition Irec (a : Z) : trace_record := TraceRecord "I" a 1.

Definition counters (g : globals) : Z * Z * Z :=
  (total_hits g, total_misses g, total_evictions g).

(** ** Notions used in the statements *)

(** The set index and the tag that [access_data] extracts from an address. *)
Definition set_index_of (g : globals) (a : Z) : Z :=
  Z.land (Z.shiftr a (block_offset_bits g)) (set_index_mask g).

Definition tag_of (g : globals) (a : Z) : Z :=
  Z.shiftr a (set_index_bits g + block_offset_bits g).

Definition target_set (g : globals) (a : Z) : option (list cache_entry) :=
  cache_memory g !! Z.to_nat (set_index_of g a).

(** Line [k] of set [n]. *)
Definition line_at (g : globals) (n k : nat) : option cache_entry :=
  grp ← cache_memory g !! n; grp !! k.

(** The test of the first loop. *)
Definition holds_tag (tag : Z) (e : cache_entry) : Prop :=
  is_valid e = true ∧ tag_value e = tag.

(** No line of the group is valid with this tag. *)
Definition absent (tag : Z) (grp : list cache_entry) : Prop :=
  ∀ k e, grp !! k = Some e → ¬ holds_tag tag e.

(** Line [v] has the least [lru_counter] of the group, and every line before
    it has a strictly greater one. *)
Definition least_recent (grp : list cache_entry) (v : nat) : Prop :=
  ∃ e, grp !! v = Some e
     ∧ (∀ k e', grp !! k = Some e' → lru_counter e ≤ lru_counter e')
     ∧ (∀ k e', (k < v)%nat → grp !! k = Some e' → lru_counter e < lru_counter e').

(** No two valid lines of the group hold the same tag. *)
Definition tags_unique (grp : list cache_entry) : Prop :=
  ∀ i j ei ej, grp !! i = Some ei → grp !! j = Some ej →
    is_valid ei = true → is_valid ej = true →
    tag_value ei = tag_value ej → i = j.

(** What a line's [lru_counter] can be when the clock shows [clock]. *)
Definition line_ok (clock : Z) (e : cache_entry) : Prop :=
  if is_valid e then 1 ≤ lru_counter e < clock else lru_counter e = 0.

(** The representation invariant of the simulator state. *)
Record wf (g : globals) : Prop := {
  wf_s : 0 ≤ set_index_bits g ≤ 30;
  wf_b : 0 ≤ block_offset_bits g ≤ 30;
  wf_mask : set_index_mask g = 2 ^ set_index_bits g - 1;
  wf_sets : number_of_sets g = 2 ^ set_index_bits g;
  wf_block : block_size_bytes g = 2 ^ block_offset_bits g;
  wf_rows : length (cache_memory g) = Z.to_nat (number_of_sets g);
  wf_cols : Forall (λ grp, length grp = Z.to_nat (associativity g)) (cache_memory g);
  wf_lines : Forall (Forall (line_ok (global_lru_counter g))) (cache_memory g);
  wf_tags : Forall tags_unique (cache_memory g);
  wf_clock : global_lru_counter g = 1 + total_hits g + total_misses g;
  wf_hits : 0 ≤ total_hits g ≤ INT_MAX;
  wf_misses : 0 ≤ total_misses g ≤ INT_MAX;
  wf_evictions : 0 ≤ total_evictions g ≤ total_misses g
}.

(** The states that a run can be in: a freshly initialised cache, and what
    defined accesses make of it. *)
Inductive reachable : globals → Prop :=
| reachable_init s E b g :
    configure s E b = Some g → reachable g
| reachable_access g a g' :
    reachable g → access_data g a = Some g' → reachable g'.

(** The number of accesses that the [switch] issues for a record. *)
Definition accesses_of (r : trace_record) : Z :=
  match command r with
  | "L"%char | "S"%char => 1
  | "M"%char => 2
  | _ => 0
  end.

Definition accesses_in (records : list trace_record) : Z :=
  foldr (λ r n, accesses_of r + n) 0 records.

(** The two ways in which [access_data] returns. *)
Definition hit_result (g : globals) (a : Z) (grp : list cache_entry)
    (i : nat) (e : cache_entry) : globals :=
  with_access g (total_misses g) (total_hits g + 1) (total_evictions g)
    (<[Z.to_nat (set_index_of g a) := <[i := touch e (global_lru_counter g)]> grp]>
       (cache_memory g)).

Definition miss_result (g : globals) (a : Z) (grp : list cache_entry)
    (v : nat) (victim : cache_entry) : globals :=
  with_access g (total_misses g + 1) (total_hits g)
    (if is_valid victim then total_evictions g + 1 else total_evictions g)
    (<[Z.to_nat (set_index_of g a) := <[v := fill (tag_of g a) (global_lru_counter g)]> grp]>
       (cache_memory g)).

(** The state that [configure] builds when it is defined. *)
Definition fresh_cache (s E b : Z) : globals :=
  {| set_index_bits := s; block_offset_bits := b; associativity := E;
     number_of_sets := 2 ^ s; block_size_bytes := 2 ^ b;
     total_misses := 0; total_hits := 0; total_evictions := 0;
     global_lru_counter := 1;
     cache_memory := replicate (Z.to_nat (2 ^ s)) (replicate (Z.to_nat E) empty_line);
     set_index_mask := 2 ^ s - 1 |}.

(** Every set of the table satisfies [tags_unique]. *)
Definition no_shared_tags (g : globals) : Prop :=
  ∀ n grp, cache_memory g !! n = Some grp → tags_unique grp.

(** The records that issue one access, and those that issue two. *)
Definition is_load_store (r : trace_record) : bool :=
  Ascii.eqb (command r) "L" || Ascii.eqb (command r) "S".

Definition is_modify (r : trace_record) : bool := Ascii.eqb (command r) "M".

Definition count_records (p : trace_record → bool) (records : list trace_record) : Z :=
  Z.of_nat (length (List.filter p records)).

(** ** Sample states *)

(** One line per set, two sets, blocks of one byte. *)
Definition one_line_cache : globals := fresh_cache 1 1 0.

(** The same cache after an access to address 0. *)
Definition one_line_cache_after_0 : globals :=
  {| set_index_bits := 1; block_offset_bits := 0; associativity := 1;
     number_of_sets := 2; block_size_bytes := 1;
     total_misses := 1; total_hits := 0; total_evictions := 0;
     global_lru_counter := 2;
     cache_memory := [[fill 0 1]; [empty_line]];
     set_index_mask := 1 |}.

(** Two lines per set, two sets, blocks of two bytes. *)
Definition two_way_cache : globals := fresh_cache 1 2 1.

(** The same cache after L 0, L 4, L 0: set 0 holds the tags 0 and 1, and
    the line with tag 1 is the least recent one. *)
Definition two_way_cache_warm : globals :=
  {| set_index_bits := 1; block_offset_bits := 1; associativity := 2;
     number_of_sets := 2; block_size_bytes := 2;
     total_misses := 2; total_hits := 1; total_evictions := 0;
     global_lru_counter := 4;
     cache_memory := [[fill 0 3; fill 1 2]; [empty_line; empty_line]];
     set_index_mask := 1 |}.

(** And after one more access, to address 8 (set 0, tag 2). *)
Definition two_way_cache_evicted : globals :=
  {| set_index_bits := 1; block_offset_bits := 1; associativity := 2;
     number_of_sets := 2; block_size_bytes := 2;
     total_misses := 3; total_hits := 1; total_evictions := 1;
     global_lru_counter := 5;
     cache_memory := [[fill 0 3; fill 2 4]; [empty_line; empty_line]];
     set_index_mask := 1 |}.

(** ** Notions for the further properties *)

(** The sum of [f] over a list. *)
Definition total {A} (f : A → Z) (l : list A) : Z :=
  foldr (λ x n, f x + n) 0 l.

(** The number of valid lines of a set, and of the whole table. *)
Definition valid_lines_in (grp : list cache_entry) : Z :=
  total (λ e, if is_valid e then 1 else 0) grp.

Definition valid_lines (g : globals) : Z :=
  total valid_lines_in (cache_memory g).

(** Every line of the set is valid. *)
Definition full (grp : list cache_entry) : Prop :=
  ∀ k e, grp !! k = Some e → is_valid e = true.

(** The valid lines of the set come before the invalid ones. *)
Definition filled_in_order (grp : list cache_entry) : Prop :=
  ∀ i j ei ej, (i < j)%nat → grp !! i = Some ei → grp !! j = Some ej →
    is_valid ej = true → is_valid ei = true.

(** No two valid lines of the table carry the same [lru_counter]. *)
Definition stamps_distinct (g : globals) : Prop :=
  ∀ n k n' k' e e',
    line_at g n k = Some e → line_at g n' k' = Some e' →
    is_valid e = true → is_valid e' = true →
    lru_counter e = lru_counter e' → n = n' ∧ k = k'.

(** The block number of an address: the address without its offset bits. *)
Definition block_of (g : globals) (a : Z) : Z :=
  Z.shiftr a (block_offset_bits g).

(** The address is cached: its target set has a valid line with its tag. *)
Definition cached (g : globals) (a : Z) : Prop :=
  ∃ grp i e, target_set g a = Some grp ∧ grp !! i = Some e ∧
             holds_tag (tag_of g a) e.

(** A sequence of accesses, each on the state that the one before left. *)
Fixpoint run (g : globals) (addresses : list Z) : option globals :=
  match addresses with
  | [] => Some g
  | a :: rest => g1 ← access_data g a; run g1 rest
  end.

(** The addresses that the [switch] of [replay_trace] passes to
    [access_data] for a record, and for a trace. *)
Definition addresses_of (r : trace_record) : list Z :=
  match command r with
  | "L"%char | "S"%char => [address r]
  | "M"%char => [address r; address r]
  | _ => []
  end.

Definition accessed_addresses (records : list trace_record) : list Z :=
  flat_map addresses_of records.

(** The geometry of [h] is that of [g]. *)
Definition same_geometry (g h : globals) : Prop :=
  set_index_bits h = set_index_bits g ∧
  block_offset_bits h = block_offset_bits g ∧
  associativity h = associativity g ∧
  number_of_sets h = number_of_sets g ∧
  block_size_bytes h = block_size_bytes g ∧
  set_index_mask h = set_index_mask g.

(** The state [h] still caches the address [a] of geometry [g], in a line
    stamped at [t0] or later, and the valid lines of the set of [a] with such
    a stamp hold the tag of [a] or a tag of the list [D]. *)
Definition retains (g : globals) (a t0 : Z) (D : list Z) (h : globals) : Prop :=
  same_geometry g h ∧ t0 < global_lru_counter h ∧
  ∃ grp, target_set h a = Some grp ∧
    (∃ i e, grp !! i = Some e ∧ holds_tag (tag_of g a) e ∧ t0 ≤ lru_counter e) ∧
    (∀ k e, grp !! k = Some e → is_valid e = true → t0 ≤ lru_counter e →
            tag_value e = tag_of g a ∨ tag_value e ∈ D).

(** ** The option loop of [main] (lines 159 to 181) *)

Module CommandLine.

(** The variables that the loop sets, with the initialisers of lines 38 to 42. *)
Record settings := Settings {
  verbose_mode : Z;
  set_index_bits : Z;
  block_offset_bits : Z;
  associativity : Z;
  trace_filename : option String.string
}.

Definition initial : settings :=
  {| verbose_mode := 0; set_index_bits := 0; block_offset_bits := 0;
     associativity := 0; trace_filename := None |}.

(** The loop ends in [exit(status)] or falls through to line 184. *)
Inductive loop_result :=
| Exit (status : Z)
| Parsed (v : settings).

Section Loop.
(** [atoi] belongs to the C library. *)
Context (atoi : String.string → Z).

(** [returned] lists what the successive calls of [getopt] return before
    the one that returns -1: the option character ([opt] here, for the
    variable [option] of the source) and the [optarg] it leaves
    (of no account for an option without argument). *)
Fixpoint getopt_loop (returned : list (ascii * String.string)) (v : settings)
    : loop_result :=
  match returned with
  | [] => Parsed v
  | (opt, optarg) :: rest =>
      match opt with
      | "s"%char =>
          getopt_loop rest
            {| verbose_mode := verbose_mode v; set_index_bits := atoi optarg;
               block_offset_bits := block_offset_bits v;
               associativity := associativity v;
               trace_filename := trace_filename v |}
      | "E"%char =>
          getopt_loop rest
            {| verbose_mode := verbose_mode v; set_index_bits := set_index_bits v;
               block_offset_bits := block_offset_bits v;
               associativity := atoi optarg;
               trace_filename := trace_filename v |}
      | "b"%char =>
          getopt_loop rest
            {| verbose_mode := verbose_mode v; set_index_bits := set_index_bits v;
               block_offset_bits := atoi optarg;
               associativity := associativity v;
               trace_filename := trace_filename v |}
      | "t"%char =>
          getopt_loop rest
            {| verbose_mode := verbose_mode v; set_index_bits := set_index_bits v;
               block_offset_bits := block_offset_bits v;
               associativity := associativity v;
               trace_filename := Some optarg |}
      | "v"%char =>
          getopt_loop rest
            {| verbose_mode := 1; set_index_bits := set_index_bits v;
               block_offset_bits := block_offset_bits v;
               associativity := associativity v;
               trace_filename := trace_filename v |}
      | "h"%char => Exit 0
      | _ => Exit 1
      end
  end.

End Loop.

(** The option characters that keep the loop going. *)
Definition recognised (opt : ascii) : bool :=
  Ascii.eqb opt "s" || Ascii.eqb opt "E" || Ascii.eqb opt "b"
  || Ascii.eqb opt "t" || Ascii.eqb opt "v".

(** The [optarg] of the last occurrence of an option, and whether the option
    occurs at all. *)
Fixpoint last_optarg (opt : ascii) (returned : list (ascii * String.string))
    : option String.string :=
  match returned with
  | [] => None
  | (o, optarg) :: rest =>
      match last_optarg opt rest with
      | Some later => Some later
      | None => if Ascii.eqb o opt then Some optarg else None
      end
  end.

Definition given (opt : ascii) (returned : list (ascii * String.string)) : bool :=
  existsb (λ p, Ascii.eqb (fst p) opt) returned.

End CommandLine.

(** How a run of the whole program ends: in an [exit] of the option loop, or
    as [main] ends after it. *)
Inductive program_outcome :=
| Exited (status : Z)
| Continued (o : outcome).

(** The whole of [main]. [trace_of] gives, for the name of a trace file, the
    records that [fscanf] reads from it. *)
Definition main_from_options (atoi : String.string → Z)
    (trace_of : String.string → list trace_record)
    (returned : list (ascii * String.string)) : program_outcome :=
  match CommandLine.getopt_loop atoi returned CommandLine.initial with
  | CommandLine.Exit status => Exited status
  | CommandLine.Parsed v =>
      Continued (main (CommandLine.set_index_bits v) (CommandLine.associativity v)
                      (CommandLine.block_offset_bits v)
                      (trace_of <$> CommandLine.trace_filename v))
  end.

(** A stand-in for [atoi] in the examples: the number of characters. *)
Definition sample_atoi (optarg : String.string) : Z :=
  Z.of_nat (String.length optarg).

(** A stand-in for the file system in the examples: every file holds the
    same two records. *)
Definition sample_trace_of (name : String.string) : list trace_record :=
  [Lrec 0; Mrec 4].

(** Command lines for the examples, as [getopt] returns them. *)
Module Samples.
Import String.

Definition help_after_s : list (ascii * string) :=
  [("s"%char, "4"%string); ("h"%char, ""%string); ("?"%char, ""%string)].

Definition s_given_twice : list (ascii * string) :=
  [("s"%char, "1"%string); ("t"%char, "a"%string); ("s"%char, "333"%string)].

Definition b_missing : list (ascii * string) :=
  [("s"%char, "1"%string); ("v"%char, ""%string); ("E"%char, "1"%string);
   ("t"%char, "yi.trace"%string)].

Definition complete : list (ascii * string) :=
  [("s"%char, "1"%string); ("v"%char, ""%string); ("E"%char, "1"%string);
   ("b"%char, "1"%string); ("t"%char, "yi.trace"%string)].

Definition file_a : string := "a"%string.

End Samples.

(** Two settings that differ at most in [verbose_mode]. *)
Definition same_but_verbose (v w : CommandLine.settings) : Prop :=
  CommandLine.set_index_bits v = CommandLine.set_index_bits w ∧
  CommandLine.block_offset_bits v = CommandLine.block_offset_bits w ∧
  CommandLine.associativity v = CommandLine.associativity w ∧
  CommandLine.trace_filename v = CommandLine.trace_filename w.

(** The options other than v. *)
Definition without_verbose (returned : list (ascii * String.string))
    : list (ascii * String.string) :=
  List.filter (λ p, negb (Ascii.eqb (fst p) "v")) returned.

(** ** Allocation: [init_cache] and [free_cache] as users of the heap *)

Module Allocation.

(** The live blocks of the heap, most recent first, each with the name that
    stands for its address and its size in bytes. [malloc] is taken to
    succeed and to return a block that is not live; [free] of a block that
    is not live is undefined. *)
Definition heap := list (nat * Z).

Definition live (h : list (nat * Z)) : list nat := fst <$> h.

Definition malloc (size : Z) (h : list (nat * Z)) : nat * list (nat * Z) :=
  let p := S (max_list (live h)) in (p, (p, size) :: h).

Definition free (p : nat) (h : list (nat * Z)) : option (list (nat * Z)) :=
  if bool_decide (p ∈ live h)
  then Some (List.filter (λ blk, negb (Nat.eqb (fst blk) p)) h)
  else None.

(** [sizeof(T) * n] with [n] an [int]: a product of [size_t] values. *)
Definition size_of_array (sizeof_T n : Z) : Z := (sizeof_T * n) mod 2 ^ 64.

Definition sizeof_cache_group_t : Z := 8.
Definition sizeof_cache_entry_t : Z := 24.

(** The pointer [cache_memory] and the pointers stored in the block it
    points to, [cache_memory[0]], [cache_memory[1]], ... *)
Record table := Table {
  cache_memory : nat;
  groups : list nat
}.

(** The outer loop of [init_cache], as far as the heap goes. *)
Fixpoint init_cache_loop (iterations : nat) (associativity : Z)
    (stored : list nat) (h : list (nat * Z)) : list nat * list (nat * Z) :=
  match iterations with
  | O => (stored, h)
  | S k =>
      let '(p, h1) := malloc (size_of_array sizeof_cache_entry_t associativity) h in
      init_cache_loop k associativity (stored ++ [p]) h1
  end.

Definition init_cache (number_of_sets associativity : Z) (h : list (nat * Z))
    : table * list (nat * Z) :=
  let '(p, h1) := malloc (size_of_array sizeof_cache_group_t number_of_sets) h in
  let '(stored, h2) := init_cache_loop (Z.to_nat number_of_sets) associativity [] h1 in
  ({| cache_memory := p; groups := stored |}, h2).

(** The loop of [free_cache]; reading [cache_memory[set_index]] where
    [init_cache] stored no pointer is undefined. *)
Fixpoint free_cache_loop (iterations : nat) (set_index : nat) (t : table)
    (h : list (nat * Z)) : option (list (nat * Z)) :=
  match iterations with
  | O => Some h
  | S k =>
      p ← groups t !! set_index;
      h1 ← free p h;
      free_cache_loop k (S set_index) t h1
  end.

Definition free_cache (number_of_sets : Z) (t : table) (h : list (nat * Z))
    : option (list (nat * Z)) :=
  h1 ← free_cache_loop (Z.to_nat number_of_sets) 0 t h;
  free (cache_memory t) h1.

(** The blocks of a list of pointers, as successive [malloc]s of one size
    leave them on the heap. *)
Definition blocks (size : Z) (pointers : list nat) : list (nat * Z) :=
  reverse ((λ p, (p, size)) <$> pointers).

End Allocation.

(** The state [h] has seen, since the access that stamped the address [a]
    of geometry [g] at [t0], accesses to the tags [seen] in the set of [a]:
    a line of that set with the tag of [a] still carries the stamp [t0], and
    as long as there is one, every tag of [seen] is in the set with a later
    stamp. *)
Definition outlives (g : globals) (a t0 : Z) (seen : list Z) (h : globals) : Prop :=
  same_geometry g h ∧ t0 < global_lru_counter h ∧
  ∃ grp, target_set h a = Some grp ∧
    (∀ k e, grp !! k = Some e → holds_tag (tag_of g a) e → lru_counter e = t0) ∧
    ((∃ k e, grp !! k = Some e ∧ holds_tag (tag_of g a) e) →
     ∀ t, t ∈ seen →
          ∃ k e, grp !! k = Some e ∧ holds_tag t e ∧ t0 < lru_counter e).

(** The tags of the addresses of a sequence that go to the set of [a]. *)
Definition tags_in_set_of (g : globals) (a : Z) (addresses : list Z) : list Z :=
  tag_of g <$> List.filter (λ a', set_index_of g a' =? set_index_of g a) addresses.

(** ** Allocation when [malloc] can fail *)

Module Storage.

Section Allocator.
(** Whether the C library grants a request of [size] bytes on a heap; any
    policy is an instance. *)
Context (available : Z → list (nat * Z) → bool).

(** [malloc]: a block that is not live, or NULL ([None]) and the heap as it
    was. *)
Definition malloc (size : Z) (h : list (nat * Z))
    : option nat * list (nat * Z) :=
  if available size h
  then let p := S (max_list (Allocation.live h)) in (Some p, (p, size) :: h)
  else (None, h).

(** [free]: no operation for NULL, undefined for a block that is not live. *)
Definition free (p : option nat) (h : list (nat * Z)) : option (list (nat * Z)) :=
  match p with
  | None => Some h
  | Some q => Allocation.free q h
  end.

(** The pointer [cache_memory] and the pointers stored through it. *)
Record table := Table {
  cache_memory : option nat;
  groups : list (option nat)
}.

(** The outer loop of [init_cache]. Line 64 stores the result of [malloc]
    through [cache_memory], and the inner loop, when [associativity] is
    positive, writes through that result: both are undefined for NULL. *)
Fixpoint init_cache_loop (iterations : nat) (associativity : Z)
    (cache_memory : option nat) (stored : list (option nat))
    (h : list (nat * Z)) : option (list (option nat) * list (nat * Z)) :=
  match iterations with
  | O => Some (stored, h)
  | S k =>
      let '(q, h1) :=
        malloc (Allocation.size_of_array Allocation.sizeof_cache_entry_t associativity) h in
      match cache_memory, q with
      | None, _ => None
      | Some _, None =>
          if 0 <? associativity then None
          else init_cache_loop k associativity cache_memory (stored ++ [q]) h1
      | Some _, Some _ =>
          init_cache_loop k associativity cache_memory (stored ++ [q]) h1
      end
  end.

Definition init_cache (number_of_sets associativity : Z) (h : list (nat * Z))
    : option (table * list (nat * Z)) :=
  let '(p, h1) :=
    malloc (Allocation.size_of_array Allocation.sizeof_cache_group_t number_of_sets) h in
  '(stored, h2) ← init_cache_loop (Z.to_nat number_of_sets) associativity p [] h1;
  Some ({| cache_memory := p; groups := stored |}, h2).

(** The loop of [free_cache]: it reads [cache_memory[set_index]] through
    [cache_memory] and frees what it reads. *)
Fixpoint free_cache_loop (iterations : nat) (set_index : nat) (t : table)
    (h : list (nat * Z)) : option (list (nat * Z)) :=
  match iterations with
  | O => Some h
  | S k =>
      match cache_memory t with
      | None => None
      | Some _ =>
          q ← groups t !! set_index;
          h1 ← free q h;
          free_cache_loop k (S set_index) t h1
      end
  end.

Definition free_cache (number_of_sets : Z) (t : table) (h : list (nat * Z))
    : option (list (nat * Z)) :=
  h1 ← free_cache_loop (Z.to_nat number_of_sets) 0 t h;
  free (cache_memory t) h1.

End Allocator.

(** The pointers of a list that are not NULL. *)
Definition non_null (pointers : list (option nat)) : list nat :=
  omap id pointers.

(** A policy for the examples: requests of up to [PTRDIFF_MAX] bytes are
    granted, larger ones refused. *)
Definition up_to_ptrdiff_max (size : Z) (h : list (nat * Z)) : bool :=
  size <=? 2 ^ 63 - 1.

End Storage.

(** * Properties *)

(** ** Machine arithmetic *)

Lemma int_add_Some x y z :
  int_add x y = Some z ↔ z = x + y ∧ INT_MIN ≤ x + y ≤ INT_MAX.
Proof.
  unfold int_add. case_bool_decide; split.
  - intros [= <-]. auto.
  - intros [-> _]. reflexivity.
  - discriminate.
  - intros [_ ?]. contradiction.
Qed.

Lemma int_incr_Some x z :
  int_incr x = Some z ↔ z = x + 1 ∧ INT_MIN ≤ x + 1 ≤ INT_MAX.
Proof. apply int_add_Some. Qed.

Lemma int_incr_room x :
  0 ≤ x < INT_MAX → int_incr x = Some (x + 1).
Proof.
  intros Hx. apply int_incr_Some. unfold INT_MIN, INT_MAX in *. lia.
Qed.

Lemma ull_shr_Some x n z :
  ull_shr x n = Some z ↔ z = Z.shiftr x n ∧ 0 ≤ n < 64.
Proof.
  unfold ull_shr. case_bool_decide; split.
  - intros [= <-]. auto.
  - intros [-> _]. reflexivity.
  - discriminate.
  - intros [_ ?]. contradiction.
Qed.

Lemma shiftl1_pow2 n : 0 ≤ n → Z.shiftl 1 n = 2 ^ n.
Proof. intros Hn. rewrite Z.shiftl_mul_pow2 by lia. lia. Qed.

(** [1 << shift] is an [int] exactly for the counts 0 to 30. *)
Lemma int_shl1_Some shift z :
  int_shl1 shift = Some z ↔ z = 2 ^ shift ∧ 0 ≤ shift ≤ 30.
Proof.
  unfold int_shl1, INT_MAX. case_bool_decide as H; split.
  - intros [= <-]. destruct H as [H1 H2].
    rewrite shiftl1_pow2 in * by lia. split; [reflexivity|].
    assert (¬ 31 ≤ shift); [|lia].
    intros H31. assert (2 ^ 31 ≤ 2 ^ shift) by (apply Z.pow_le_mono_r; lia). lia.
  - intros [-> _]. f_equal. apply shiftl1_pow2. lia.
  - discriminate.
  - intros [_ Hs]. exfalso. apply H. split; [lia|].
    rewrite shiftl1_pow2 by lia.
    assert (2 ^ shift ≤ 2 ^ 30) by (apply Z.pow_le_mono_r; lia). lia.
Qed.

Lemma pow_Some two shift z : pow two shift = Some z ↔ z = 2 ^ shift ∧ 0 ≤ shift ≤ 30.
Proof. apply int_shl1_Some. Qed.

Lemma pow2_le_30 n : 0 ≤ n ≤ 30 → 1 ≤ 2 ^ n ≤ 2 ^ 30.
Proof.
  intros Hn. split.
  - assert (0 < 2 ^ n) by (apply Z.pow_pos_nonneg; lia). lia.
  - apply Z.pow_le_mono_r; lia.
Qed.

(** ** The two loops of [access_data] *)

Section FirstLoop.
Context (grp : list cache_entry) (tag : Z).

Lemma holds_tag_test e :
  is_valid e && (tag_value e =? tag) = true ↔ holds_tag tag e.
Proof.
  unfold holds_tag. rewrite andb_true_iff, Z.eqb_eq. reflexivity.
Qed.

(** The first loop stops at the first line that holds the tag. *)
Lemma hit_loop_found n i j :
  hit_loop grp tag n i = Some (Some j) →
  (i ≤ j < i + n)%nat ∧
  ∃ e, grp !! j = Some e ∧ holds_tag tag e ∧
       ∀ k e', (i ≤ k < j)%nat → grp !! k = Some e' → ¬ holds_tag tag e'.
Proof.
  revert i. induction n as [|n IH]; intros i; simpl; [discriminate|].
  destruct (grp !! i) as [e|] eqn:He; simpl; [|discriminate].
  destruct (is_valid e && (tag_value e =? tag)) eqn:Ht.
  - intros [= <-]. split; [lia|]. exists e. split; [assumption|].
    split; [by apply holds_tag_test|]. intros k e' Hk. lia.
  - intros Hrec. destruct (IH _ Hrec) as (Hj & e1 & Hj1 & Hh & Hbefore).
    split; [lia|]. exists e1. split; [assumption|]. split; [assumption|].
    intros k e' Hk Hke'. destruct (decide (k = i)) as [->|Hne].
    + assert (e' = e) as -> by congruence.
      rewrite <- holds_tag_test, Ht. discriminate.
    + apply (Hbefore k); [lia|assumption].
Qed.

(** It runs to its bound when no line below the bound holds the tag. *)
Lemma hit_loop_not_found n i :
  hit_loop grp tag n i = Some None →
  (i + n ≤ length grp ∨ n = 0)%nat ∧
  ∀ k e, (i ≤ k < i + n)%nat → grp !! k = Some e → ¬ holds_tag tag e.
Proof.
  revert i. induction n as [|n IH]; intros i; simpl.
  - intros _. split; [lia|]. intros k e Hk. lia.
  - destruct (grp !! i) as [e|] eqn:He; simpl; [|discriminate].
    destruct (is_valid e && (tag_value e =? tag)) eqn:Ht; [discriminate|].
    intros Hrec. destruct (IH _ Hrec) as [Hlen Hnone].
    pose proof (lookup_lt_Some _ _ _ He) as Hi. split; [lia|].
    intros k e' Hk Hke'. destruct (decide (k = i)) as [->|Hne].
    + assert (e' = e) as -> by congruence.
      rewrite <- holds_tag_test, Ht. discriminate.
    + apply (Hnone k); [lia|assumption].
Qed.

Lemma hit_loop_scan_hit n i j e :
  grp !! j = Some e → holds_tag tag e → (i ≤ j < i + n)%nat →
  (∀ k e', (i ≤ k < j)%nat → grp !! k = Some e' → ¬ holds_tag tag e') →
  hit_loop grp tag n i = Some (Some j).
Proof.
  revert i. induction n as [|n IH]; intros i Hj Hh Hr Hbefore; simpl; [lia|].
  destruct (decide (i = j)) as [->|Hne].
  - rewrite Hj. simpl. apply holds_tag_test in Hh. rewrite Hh. reflexivity.
  - assert (is_Some (grp !! i)) as [e' He'].
    { apply lookup_lt_is_Some. apply lookup_lt_Some in Hj. lia. }
    rewrite He'. simpl.
    destruct (is_valid e' && (tag_value e' =? tag)) eqn:Ht.
    + apply holds_tag_test in Ht. exfalso. apply (Hbefore i e'); [lia|assumption..].
    + apply IH; try assumption; [lia|].
      intros k e1 Hk. apply Hbefore. lia.
Qed.

Lemma hit_loop_scan_miss n i :
  (i + n ≤ length grp)%nat →
  (∀ k e, (i ≤ k < i + n)%nat → grp !! k = Some e → ¬ holds_tag tag e) →
  hit_loop grp tag n i = Some None.
Proof.
  revert i. induction n as [|n IH]; intros i Hlen Hnone; simpl; [reflexivity|].
  assert (is_Some (grp !! i)) as [e He].
  { apply lookup_lt_is_Some. lia. }
  rewrite He. simpl.
  destruct (is_valid e && (tag_value e =? tag)) eqn:Ht.
  - apply holds_tag_test in Ht. exfalso. apply (Hnone i e); [lia|assumption..].
  - apply IH; [lia|]. intros k e' Hk. apply Hnone. lia.
Qed.

End FirstLoop.

Section SecondLoop.
Context (grp : list cache_entry).

(** The second loop keeps the candidate it was given unless a line has a
    strictly smaller counter; the candidate it returns in that case is the
    first line with the least counter. *)
Lemma lru_loop_spec n i m0 v0 m v :
  lru_loop grp n i m0 v0 = Some (m, v) →
  (m = m0 ∧ v = v0 ∧
   ∀ k e, (i ≤ k < i + n)%nat → grp !! k = Some e → m0 ≤ lru_counter e)
  ∨ (m < m0 ∧ (i ≤ v < i + n)%nat ∧
     ∃ e, grp !! v = Some e ∧ lru_counter e = m ∧
       (∀ k e', (i ≤ k < i + n)%nat → grp !! k = Some e' → m ≤ lru_counter e') ∧
       (∀ k e', (i ≤ k < v)%nat → grp !! k = Some e' → m < lru_counter e')).
Proof.
  revert i m0 v0. induction n as [|n IH]; intros i m0 v0; simpl.
  - intros [= <- <-]. left. split; [reflexivity|]. split; [reflexivity|].
    intros k e Hk. lia.
  - destruct (grp !! i) as [e|] eqn:He; simpl; [|discriminate].
    destruct (m0 >? lru_counter e) eqn:Hcmp; intros Hrec;
      apply IH in Hrec as [(-> & -> & Hall)|(Hlt & Hv & e1 & Hv1 & Hm & Hall & Hbefore)].
    + right. apply Z.gtb_lt in Hcmp. split; [assumption|]. split; [lia|].
      exists e. split; [assumption|]. split; [reflexivity|]. split.
      * intros k e' Hk Hke'. destruct (decide (k = i)) as [->|Hne].
        -- assert (e' = e) as -> by congruence. lia.
        -- apply (Hall k); [lia|assumption].
      * intros k e' Hk. lia.
    + right. apply Z.gtb_lt in Hcmp. split; [lia|]. split; [lia|].
      exists e1. split; [assumption|]. split; [assumption|]. split.
      * intros k e' Hk Hke'. destruct (decide (k = i)) as [->|Hne].
        -- assert (e' = e) as -> by congruence. lia.
        -- apply (Hall k); [lia|assumption].
      * intros k e' Hk Hke'. destruct (decide (k = i)) as [->|Hne].
        -- assert (e' = e) as -> by congruence. lia.
        -- apply (Hbefore k); [lia|assumption].
    + left. split; [reflexivity|]. split; [reflexivity|].
      intros k e' Hk Hke'. destruct (decide (k = i)) as [->|Hne].
      * assert (e' = e) as -> by congruence.
        rewrite Z.gtb_ltb, Z.ltb_ge in Hcmp. assumption.
      * apply (Hall k); [lia|assumption].
    + right. rewrite Z.gtb_ltb, Z.ltb_ge in Hcmp.
      split; [assumption|]. split; [lia|].
      exists e1. split; [assumption|]. split; [assumption|]. split.
      * intros k e' Hk Hke'. destruct (decide (k = i)) as [->|Hne].
        -- assert (e' = e) as -> by congruence. lia.
        -- apply (Hall k); [lia|assumption].
      * intros k e' Hk Hke'. destruct (decide (k = i)) as [->|Hne].
        -- assert (e' = e) as -> by congruence. lia.
        -- apply (Hbefore k); [lia|assumption].
Qed.

Lemma lru_loop_defined n i m0 v0 :
  (i + n ≤ length grp)%nat → is_Some (lru_loop grp n i m0 v0).
Proof.
  revert i m0 v0. induction n as [|n IH]; intros i m0 v0 Hlen; simpl; [eauto|].
  assert (is_Some (grp !! i)) as [e He] by (apply lookup_lt_is_Some; lia).
  rewrite He. simpl. destruct (m0 >? lru_counter e); apply IH; lia.
Qed.

(** Started as [access_data] starts it, on a whole non-empty group of
    64-bit counters, the second loop returns the first least recent line. *)
Lemma lru_loop_least_recent m v :
  (0 < length grp)%nat →
  (∀ k e, grp !! k = Some e → lru_counter e ≤ ULONG_MAX) →
  lru_loop grp (length grp) 0 ULONG_MAX 0 = Some (m, v) →
  least_recent grp v.
Proof.
  intros Hlen Hmax Hloop.
  apply lru_loop_spec in Hloop as [(-> & -> & Hall)|(Hlt & Hv & e & Hve & Hm & Hall & Hbefore)].
  - assert (is_Some (grp !! 0%nat)) as [e He] by (apply lookup_lt_is_Some; lia).
    exists e. split; [assumption|]. split.
    + intros k e' Hke'. pose proof (lookup_lt_Some _ _ _ Hke').
      pose proof (Hall k e' ltac:(lia) Hke'). pose proof (Hmax _ _ He). lia.
    + intros k e' Hk. lia.
  - exists e. split; [assumption|]. subst m. split.
    + intros k e' Hke'. pose proof (lookup_lt_Some _ _ _ Hke').
      apply (Hall k); [lia|assumption].
    + intros k e' Hk Hke'. apply (Hbefore k); [lia|assumption].
Qed.

(** The first least recent line is unique. *)
Lemma least_recent_unique v w :
  least_recent grp v → least_recent grp w → v = w.
Proof.
  intros (e & He & Hmin & Hlt) (e' & He' & Hmin' & Hlt').
  destruct (Nat.lt_trichotomy v w) as [H|[H|H]]; [|assumption|].
  - pose proof (Hlt' _ _ H He). pose proof (Hmin _ _ He'). lia.
  - pose proof (Hlt _ _ H He'). pose proof (Hmin' _ _ He). lia.
Qed.

End SecondLoop.

(** ** The two branches of [access_data] *)

Lemma access_data_inv g a g' :
  access_data g a = Some g' →
  0 ≤ block_offset_bits g < 64 ∧
  0 ≤ set_index_bits g + block_offset_bits g < 64 ∧
  ∃ grp, target_set g a = Some grp ∧
    ((∃ i e,
        hit_loop grp (tag_of g a) (Z.to_nat (associativity g)) 0 = Some (Some i) ∧
        grp !! i = Some e ∧
        total_hits g + 1 ≤ INT_MAX ∧
        g' = hit_result g a grp i e)
     ∨ (∃ m v victim,
        hit_loop grp (tag_of g a) (Z.to_nat (associativity g)) 0 = Some None ∧
        lru_loop grp (Z.to_nat (associativity g)) 0 ULONG_MAX 0 = Some (m, v) ∧
        grp !! v = Some victim ∧
        total_misses g + 1 ≤ INT_MAX ∧
        (is_valid victim = true → total_evictions g + 1 ≤ INT_MAX) ∧
        g' = miss_result g a grp v victim)).
Proof.
  unfold access_data, target_set, set_index_of, tag_of. intros H.
  apply bind_Some in H as (shifted & Hsh & H).
  apply ull_shr_Some in Hsh as [-> Hb].
  apply bind_Some in H as (tag_shift & Hts & H).
  apply int_add_Some in Hts as [-> _].
  apply bind_Some in H as (tag & Htag & H).
  apply ull_shr_Some in Htag as [-> Hsb].
  apply bind_Some in H as (grp & Hgrp & H).
  apply bind_Some in H as (found & Hfound & H).
  split; [assumption|]. split; [assumption|].
  exists grp. split; [assumption|].
  destruct found as [i|].
  - left. apply bind_Some in H as (e & He & H).
    apply bind_Some in H as (hits & Hhits & H).
    apply int_incr_Some in Hhits as [-> Hroom].
    exists i, e. injection H as <-. repeat (split; [first [assumption|lia]|]).
    reflexivity.
  - right. apply bind_Some in H as (misses & Hmisses & H).
    apply int_incr_Some in Hmisses as [-> Hroom].
    apply bind_Some in H as ([m v] & Hloop & H).
    apply bind_Some in H as (victim & Hvictim & H).
    apply bind_Some in H as (evictions & Hev & H).
    exists m, v, victim. injection H as <-.
    repeat (split; [first [assumption|lia]|]).
    unfold miss_result, set_index_of, tag_of.
    destruct (is_valid victim).
    + apply int_incr_Some in Hev as [-> Hroom']. split; [lia|reflexivity].
    + injection Hev as <-. split; [discriminate|reflexivity].
Qed.

(** With bit counts that make the two shifts defined, [access_data] is the
    lookup of the target set followed by the two loops. *)
Lemma access_data_decoded g a :
  0 ≤ block_offset_bits g →
  0 ≤ set_index_bits g →
  set_index_bits g + block_offset_bits g < 64 →
  access_data g a
  = (grp ← target_set g a;
     found ← hit_loop grp (tag_of g a) (Z.to_nat (associativity g)) 0;
     match found with
     | Some i =>
         e ← grp !! i;
         hits ← int_incr (total_hits g);
         Some (with_access g (total_misses g) hits (total_evictions g)
                 (<[Z.to_nat (set_index_of g a) :=
                      <[i := touch e (global_lru_counter g)]> grp]> (cache_memory g)))
     | None =>
         misses ← int_incr (total_misses g);
         '(_, v) ← lru_loop grp (Z.to_nat (associativity g)) 0 ULONG_MAX 0;
         victim ← grp !! v;
         evictions ← (if is_valid victim then int_incr (total_evictions g)
                      else Some (total_evictions g));
         Some (with_access g misses (total_hits g) evictions
                 (<[Z.to_nat (set_index_of g a) :=
                      <[v := fill (tag_of g a) (global_lru_counter g)]> grp]>
                    (cache_memory g)))
     end).
Proof.
  intros Hb Hs Hsb. unfold access_data, target_set, set_index_of, tag_of.
  assert (ull_shr a (block_offset_bits g) = Some (Z.shiftr a (block_offset_bits g))) as ->
    by (apply ull_shr_Some; split; [reflexivity|lia]).
  assert (int_add (set_index_bits g) (block_offset_bits g)
          = Some (set_index_bits g + block_offset_bits g)) as ->
    by (apply int_add_Some; unfold INT_MIN, INT_MAX; split; [reflexivity|lia]).
  simpl.
  assert (ull_shr a (set_index_bits g + block_offset_bits g)
          = Some (Z.shiftr a (set_index_bits g + block_offset_bits g))) as ->
    by (apply ull_shr_Some; split; [reflexivity|lia]).
  reflexivity.
Qed.

Lemma access_data_hit g a grp i e :
  0 ≤ block_offset_bits g →
  0 ≤ set_index_bits g →
  set_index_bits g + block_offset_bits g < 64 →
  target_set g a = Some grp →
  hit_loop grp (tag_of g a) (Z.to_nat (associativity g)) 0 = Some (Some i) →
  grp !! i = Some e →
  0 ≤ total_hits g < INT_MAX →
  access_data g a = Some (hit_result g a grp i e).
Proof.
  intros Hb Hs Hsb Hgrp Hloop He Hroom.
  rewrite access_data_decoded by assumption.
  rewrite Hgrp. simpl. rewrite Hloop. simpl. rewrite He. simpl.
  rewrite int_incr_room by assumption. reflexivity.
Qed.

Lemma access_data_miss g a grp m v victim :
  0 ≤ block_offset_bits g →
  0 ≤ set_index_bits g →
  set_index_bits g + block_offset_bits g < 64 →
  target_set g a = Some grp →
  hit_loop grp (tag_of g a) (Z.to_nat (associativity g)) 0 = Some None →
  lru_loop grp (Z.to_nat (associativity g)) 0 ULONG_MAX 0 = Some (m, v) →
  grp !! v = Some victim →
  0 ≤ total_misses g < INT_MAX →
  0 ≤ total_evictions g < INT_MAX →
  access_data g a = Some (miss_result g a grp v victim).
Proof.
  intros Hb Hs Hsb Hgrp Hloop Hlru Hv Hroom Hroom'.
  rewrite access_data_decoded by assumption.
  rewrite Hgrp. simpl. rewrite Hloop. simpl.
  rewrite (int_incr_room (total_misses g)) by assumption. simpl.
  rewrite Hlru. simpl. rewrite Hv. simpl. unfold miss_result.
  destruct (is_valid victim); simpl; [|reflexivity].
  rewrite (int_incr_room (total_evictions g)) by assumption. reflexivity.
Qed.

(** ** The representation invariant *)

Lemma line_ok_mono c c' e : line_ok c e → c ≤ c' → line_ok c' e.
Proof. unfold line_ok. destruct (is_valid e); lia. Qed.

Lemma line_ok_range c e : line_ok c e → 0 ≤ lru_counter e ∧ (lru_counter e < c ∨ c ≤ 0).
Proof. unfold line_ok. destruct (is_valid e); lia. Qed.

Lemma tags_unique_touch grp i e c :
  tags_unique grp → grp !! i = Some e → tags_unique (<[i := touch e c]> grp).
Proof.
  intros Huniq He j k ej ek Hj Hk Hvj Hvk Htag.
  apply list_lookup_insert_Some in Hj as [(<- & <- & _)|[Hnj Hj]];
    apply list_lookup_insert_Some in Hk as [(<- & <- & _)|[Hnk Hk]];
    try reflexivity; simpl in *.
  - apply (Huniq i k e ek); assumption.
  - apply (Huniq j i ej e); assumption.
  - apply (Huniq j k ej ek); assumption.
Qed.

Lemma tags_unique_fill grp v tag c :
  tags_unique grp → absent tag grp → tags_unique (<[v := fill tag c]> grp).
Proof.
  intros Huniq Habs j k ej ek Hj Hk Hvj Hvk Htag.
  apply list_lookup_insert_Some in Hj as [(<- & <- & _)|[Hnj Hj]];
    apply list_lookup_insert_Some in Hk as [(<- & <- & _)|[Hnk Hk]];
    try reflexivity; simpl in *.
  - exfalso. apply (Habs k ek Hk). split; [assumption|congruence].
  - exfalso. apply (Habs j ej Hj). split; [assumption|congruence].
  - apply (Huniq j k ej ek); assumption.
Qed.

Lemma tags_unique_replicate n : tags_unique (replicate n empty_line).
Proof.
  intros i j ei ej Hi _ Hv. apply lookup_replicate_1 in Hi as [-> _]. discriminate.
Qed.

(** In a well-formed state the mask keeps the low [set_index_bits] bits, so
    the set index is below the number of sets. *)
Lemma set_index_of_mod g a :
  wf g →
  set_index_of g a = Z.shiftr a (block_offset_bits g) mod 2 ^ set_index_bits g.
Proof.
  intros Hwf. unfold set_index_of. rewrite (wf_mask g Hwf).
  replace (2 ^ set_index_bits g - 1) with (Z.ones (set_index_bits g))
    by (rewrite Z.ones_equiv; lia).
  apply Z.land_ones. apply (wf_s g Hwf).
Qed.

Lemma set_index_of_range g a :
  wf g → 0 ≤ set_index_of g a < number_of_sets g.
Proof.
  intros Hwf. rewrite (set_index_of_mod g a Hwf), (wf_sets g Hwf).
  apply Z.mod_pos_bound. apply Z.pow_pos_nonneg; [lia|apply (wf_s g Hwf)].
Qed.

Lemma wf_target_set g a : wf g → is_Some (target_set g a).
Proof.
  intros Hwf. unfold target_set. apply lookup_lt_is_Some.
  rewrite (wf_rows g Hwf). pose proof (set_index_of_range g a Hwf). lia.
Qed.

Lemma wf_group_length g a grp :
  wf g → target_set g a = Some grp → length grp = Z.to_nat (associativity g).
Proof.
  intros Hwf Hgrp. exact (Forall_lookup_1 _ _ _ _ (wf_cols g Hwf) Hgrp).
Qed.

Lemma wf_clock_range g : wf g → 1 ≤ global_lru_counter g < 2 ^ 33.
Proof.
  intros Hwf. rewrite (wf_clock g Hwf).
  pose proof (wf_hits g Hwf). pose proof (wf_misses g Hwf).
  unfold INT_MAX in *. lia.
Qed.

Lemma wf_ull_incr g : wf g → ull_incr (global_lru_counter g) = global_lru_counter g + 1.
Proof.
  intros Hwf. pose proof (wf_clock_range g Hwf). unfold ull_incr.
  apply Z.mod_small. lia.
Qed.

Lemma wf_line_range g a grp k e :
  wf g → target_set g a = Some grp → grp !! k = Some e →
  line_ok (global_lru_counter g) e.
Proof.
  intros Hwf Hgrp He.
  exact (Forall_lookup_1 _ _ _ _ (Forall_lookup_1 _ _ _ _ (wf_lines g Hwf) Hgrp) He).
Qed.

(** [configure] is defined exactly when both bit counts are between 0 and 30,
    the counts for which [1 << n] is an [int]. *)
Lemma configure_Some s E b g :
  configure s E b = Some g ↔ 0 ≤ s ≤ 30 ∧ 0 ≤ b ≤ 30 ∧ g = fresh_cache s E b.
Proof.
  unfold configure, init_cache. simpl. split.
  - intros H. apply bind_Some in H as (sets & Hsets & H).
    apply pow_Some in Hsets as [-> Hs].
    apply bind_Some in H as (block & Hblock & H).
    apply pow_Some in Hblock as [-> Hb].
    apply bind_Some in H as (p & Hp & H). apply pow_Some in Hp as [-> _].
    apply bind_Some in H as (m & Hm & H). apply int_add_Some in Hm as [-> _].
    injection H as <-. split; [assumption|]. split; [assumption|].
    unfold with_cache, fresh_cache, ull_of_int. simpl. f_equal.
    pose proof (pow2_le_30 s Hs). apply Z.mod_small. lia.
  - intros (Hs & Hb & ->).
    assert (pow 2 s = Some (2 ^ s)) as -> by (by apply pow_Some).
    assert (pow 2 b = Some (2 ^ b)) as -> by (by apply pow_Some).
    simpl. pose proof (pow2_le_30 s Hs).
    assert (int_add (2 ^ s) (-1) = Some (2 ^ s + -1)) as ->
      by (apply int_add_Some; unfold INT_MIN, INT_MAX; split; [reflexivity|lia]).
    simpl. unfold with_cache, fresh_cache, ull_of_int. simpl. do 2 f_equal.
    apply Z.mod_small. lia.
Qed.

Lemma fresh_cache_wf s E b :
  0 ≤ s ≤ 30 → 0 ≤ b ≤ 30 → wf (fresh_cache s E b).
Proof.
  intros Hs Hb.
  split; simpl; unfold INT_MAX; try first [assumption | reflexivity | lia].
  - apply length_replicate.
  - apply Forall_replicate, length_replicate.
  - apply Forall_replicate, Forall_replicate. reflexivity.
  - apply Forall_replicate, tags_unique_replicate.
Qed.

Lemma configure_wf s E b g : configure s E b = Some g → wf g.
Proof.
  intros (Hs & Hb & ->)%configure_Some. by apply fresh_cache_wf.
Qed.

(** In a well-formed state the loops scan the whole target set, so the two
    branches of [access_data] can be told apart by the contents of the set. *)
Lemma access_data_wf_inv g a g' :
  wf g → access_data g a = Some g' →
  ∃ grp, target_set g a = Some grp ∧
    ((∃ i e, grp !! i = Some e ∧ holds_tag (tag_of g a) e ∧
             total_hits g < INT_MAX ∧
             g' = hit_result g a grp i e)
     ∨ (∃ m v victim,
          absent (tag_of g a) grp ∧
          lru_loop grp (Z.to_nat (associativity g)) 0 ULONG_MAX 0 = Some (m, v) ∧
          least_recent grp v ∧ grp !! v = Some victim ∧
          total_misses g < INT_MAX ∧
          g' = miss_result g a grp v victim)).
Proof.
  intros Hwf Hacc.
  destruct (access_data_inv g a g' Hacc) as (_ & _ & grp & Hgrp & Hcases).
  pose proof (wf_group_length g a grp Hwf Hgrp) as Hlen.
  exists grp. split; [assumption|].
  destruct Hcases as [(i & e & Hloop & He & Hroom & ->)
                     |(m & v & victim & Hloop & Hlru & Hv & Hroom & _ & ->)].
  - left. exists i, e. split; [assumption|].
    apply hit_loop_found in Hloop as (_ & e' & He' & Hholds & _).
    assert (e' = e) as -> by congruence.
    split; [assumption|]. split; [lia|reflexivity].
  - right. exists m, v, victim.
    apply hit_loop_not_found in Hloop as [_ Hnone].
    split.
    { intros k e Hk. apply (Hnone k e); [|assumption].
      apply lookup_lt_Some in Hk. lia. }
    split; [assumption|]. split.
    { rewrite <- Hlen in Hlru. apply (lru_loop_least_recent grp m v).
      - apply lookup_lt_Some in Hv. lia.
      - intros k e Hk. pose proof (wf_line_range g a grp k e Hwf Hgrp Hk) as Hok.
        apply line_ok_range in Hok. pose proof (wf_clock_range g Hwf).
        unfold ULONG_MAX. lia.
      - assumption. }
    split; [assumption|]. split; [lia|reflexivity].
Qed.

(** Every defined access preserves the invariant. *)
Lemma access_data_wf g a g' : wf g → access_data g a = Some g' → wf g'.
Proof.
  intros Hwf Hacc.
  destruct (access_data_wf_inv g a g' Hwf Hacc) as (grp & Hgrp & Hcases).
  pose proof (wf_group_length g a grp Hwf Hgrp) as Hlen.
  pose proof (wf_ull_incr g Hwf) as Hclock.
  pose proof (wf_clock_range g Hwf) as Hrange.
  pose proof (wf_hits g Hwf) as Hh. pose proof (wf_misses g Hwf) as Hm.
  pose proof (wf_evictions g Hwf) as Hev.
  assert (Forall (Forall (line_ok (global_lru_counter g + 1))) (cache_memory g)) as Hlines.
  { eapply Forall_impl; [apply (wf_lines g Hwf)|]. intros row Hrow.
    eapply Forall_impl; [exact Hrow|]. intros e He.
    apply (line_ok_mono (global_lru_counter g)); [assumption|lia]. }
  destruct Hcases as [(i & e & He & [Hvalid Htag] & Hroom & ->)
                     |(m & v & victim & Habs & _ & _ & Hv & Hroom & ->)].
  - split; simpl; try first [apply Hwf | lia].
    + rewrite length_insert. apply Hwf.
    + apply Forall_insert; [apply Hwf|]. rewrite length_insert. assumption.
    + rewrite Hclock. apply Forall_insert; [assumption|].
      apply Forall_insert; [exact (Forall_lookup_1 _ _ _ _ Hlines Hgrp)|].
      unfold line_ok, touch. simpl. rewrite Hvalid. lia.
    + apply Forall_insert; [apply Hwf|]. apply tags_unique_touch; [|assumption].
      exact (Forall_lookup_1 _ _ _ _ (wf_tags g Hwf) Hgrp).
    + rewrite Hclock, (wf_clock g Hwf). lia.
  - split; simpl; try first [apply Hwf | lia].
    + rewrite length_insert. apply Hwf.
    + apply Forall_insert; [apply Hwf|]. rewrite length_insert. assumption.
    + rewrite Hclock. apply Forall_insert; [assumption|].
      apply Forall_insert; [exact (Forall_lookup_1 _ _ _ _ Hlines Hgrp)|].
      unfold line_ok, fill. simpl. lia.
    + apply Forall_insert; [apply Hwf|]. apply tags_unique_fill; [|assumption].
      exact (Forall_lookup_1 _ _ _ _ (wf_tags g Hwf) Hgrp).
    + rewrite Hclock, (wf_clock g Hwf). lia.
    + destruct (is_valid victim); lia.
Qed.

Lemma reachable_wf g : reachable g → wf g.
Proof.
  induction 1 as [s E b g Hconf|g a g' _ IH Hacc].
  - exact (configure_wf s E b g Hconf).
  - exact (access_data_wf g a g' IH Hacc).
Qed.

(** ** Defined accesses *)

(** A valid line holding the tag makes the access a hit on that very line:
    by [tags_unique] no earlier line can stop the first loop. *)
Lemma access_data_present g a grp i e :
  wf g → target_set g a = Some grp → grp !! i = Some e →
  holds_tag (tag_of g a) e → total_hits g < INT_MAX →
  access_data g a = Some (hit_result g a grp i e).
Proof.
  intros Hwf Hgrp He Hholds Hroom.
  pose proof (wf_s g Hwf). pose proof (wf_b g Hwf). pose proof (wf_hits g Hwf).
  apply access_data_hit; try first [assumption | lia].
  apply (hit_loop_scan_hit grp _ _ 0 i e); try assumption.
  - rewrite <- (wf_group_length g a grp Hwf Hgrp).
    apply lookup_lt_Some in He. lia.
  - intros k e' Hk Hke' [Hv' Ht'].
    destruct Hholds as [Hv Ht].
    assert (k = i); [|lia].
    apply (Forall_lookup_1 _ _ _ _ (wf_tags g Hwf) Hgrp k i e' e); congruence.
Qed.

(** With no such line, and at least one line per set, the access is a miss
    that replaces the first least recent line. *)
Lemma access_data_absent g a grp :
  wf g → 0 < associativity g → target_set g a = Some grp →
  absent (tag_of g a) grp → total_misses g < INT_MAX →
  ∃ m v victim,
    lru_loop grp (Z.to_nat (associativity g)) 0 ULONG_MAX 0 = Some (m, v) ∧
    grp !! v = Some victim ∧
    access_data g a = Some (miss_result g a grp v victim).
Proof.
  intros Hwf HE Hgrp Habs Hroom.
  pose proof (wf_s g Hwf). pose proof (wf_b g Hwf). pose proof (wf_misses g Hwf).
  pose proof (wf_evictions g Hwf).
  pose proof (wf_group_length g a grp Hwf Hgrp) as Hlen.
  destruct (lru_loop_defined grp (Z.to_nat (associativity g)) 0 ULONG_MAX 0)
    as [[m v] Hlru]; [lia|].
  assert (is_Some (grp !! v)) as [victim Hv].
  { apply lookup_lt_is_Some.
    apply lru_loop_spec in Hlru as [(_ & -> & _)|(_ & Hv & _)]; lia. }
  exists m, v, victim. split; [assumption|]. split; [assumption|].
  apply (access_data_miss g a grp m v victim); try first [assumption | lia].
  apply hit_loop_scan_miss; [lia|].
  intros k e _. apply Habs.
Qed.

Lemma hit_loop_defined grp tag n i :
  (i + n ≤ length grp)%nat → is_Some (hit_loop grp tag n i).
Proof.
  revert i. induction n as [|n IH]; intros i Hlen; simpl; [eauto|].
  assert (is_Some (grp !! i)) as [e ->] by (apply lookup_lt_is_Some; lia).
  simpl. destruct (is_valid e && (tag_value e =? tag)); [eauto|].
  apply IH. lia.
Qed.

Lemma absent_dec tag (grp : list cache_entry) :
  absent tag grp ∨ ∃ i e, grp !! i = Some e ∧ holds_tag tag e.
Proof.
  destruct (hit_loop_defined grp tag (length grp) 0) as [[i|] Hloop]; [lia| |].
  - right. apply hit_loop_found in Hloop as (_ & e & He & Hh & _). eauto.
  - left. apply hit_loop_not_found in Hloop as [_ Hnone].
    intros k e Hk. apply (Hnone k e); [|assumption].
    apply lookup_lt_Some in Hk. lia.
Qed.

(** In a well-formed state with at least one line per set, an access is
    defined as long as the [int] counters have room. *)
Lemma access_data_defined g a :
  wf g → 0 < associativity g →
  total_hits g < INT_MAX → total_misses g < INT_MAX →
  is_Some (access_data g a).
Proof.
  intros Hwf HE Hh Hm.
  destruct (wf_target_set g a Hwf) as [grp Hgrp].
  destruct (absent_dec (tag_of g a) grp) as [Habs|(i & e & He & Hholds)].
  - destruct (access_data_absent g a grp Hwf HE Hgrp Habs Hm)
      as (m & v & victim & _ & _ & ->). eauto.
  - rewrite (access_data_present g a grp i e Hwf Hgrp He Hholds Hh). eauto.
Qed.

(** The counters after a defined access: one of [total_hits] and
    [total_misses] has grown by one, and the clock with it. *)
Lemma access_data_counts g a g' :
  access_data g a = Some g' →
  (total_hits g' = total_hits g + 1 ∧ total_misses g' = total_misses g ∧
   total_evictions g' = total_evictions g)
  ∨ (total_hits g' = total_hits g ∧ total_misses g' = total_misses g + 1 ∧
     total_evictions g ≤ total_evictions g' ≤ total_evictions g + 1).
Proof.
  intros Hacc.
  destruct (access_data_inv g a g' Hacc) as (_ & _ & grp & _ & Hcases).
  destruct Hcases as [(i & e & _ & _ & _ & ->)|(m & v & victim & _ & _ & _ & _ & _ & ->)].
  - left. simpl. auto.
  - right. simpl. destruct (is_valid victim); lia.
Qed.

(** ** Lines of the table after an update *)

Lemma line_at_insert g g' n grp i x n' k :
  cache_memory g !! n = Some grp → (i < length grp)%nat →
  cache_memory g' = <[n := <[i := x]> grp]> (cache_memory g) →
  line_at g' n' k = if decide (n' = n ∧ k = i) then Some x else line_at g n' k.
Proof.
  intros Hn Hi Hmem. unfold line_at. rewrite Hmem.
  pose proof (lookup_lt_Some _ _ _ Hn) as Hlt.
  destruct (decide (n' = n)) as [->|Hne].
  - rewrite list_lookup_insert_eq by assumption. rewrite Hn. simpl.
    destruct (decide (k = i)) as [->|Hki].
    + rewrite list_lookup_insert_eq by assumption.
      rewrite decide_True by auto. reflexivity.
    + rewrite list_lookup_insert_ne by congruence.
      rewrite decide_False by tauto. reflexivity.
  - rewrite list_lookup_insert_ne by congruence.
    rewrite decide_False by tauto. reflexivity.
Qed.

Lemma line_at_hit_result g a grp i e n k :
  target_set g a = Some grp → grp !! i = Some e →
  line_at (hit_result g a grp i e) n k
  = if decide (n = Z.to_nat (set_index_of g a) ∧ k = i)
    then Some (touch e (global_lru_counter g)) else line_at g n k.
Proof.
  intros Hgrp He.
  apply (line_at_insert g _ _ grp); [exact Hgrp| |reflexivity].
  by apply lookup_lt_Some in He.
Qed.

Lemma line_at_miss_result g a grp v victim n k :
  target_set g a = Some grp → grp !! v = Some victim →
  line_at (miss_result g a grp v victim) n k
  = if decide (n = Z.to_nat (set_index_of g a) ∧ k = v)
    then Some (fill (tag_of g a) (global_lru_counter g)) else line_at g n k.
Proof.
  intros Hgrp Hv.
  apply (line_at_insert g _ _ grp); [exact Hgrp| |reflexivity].
  by apply lookup_lt_Some in Hv.
Qed.

Lemma line_at_target g a grp k :
  target_set g a = Some grp → line_at g (Z.to_nat (set_index_of g a)) k = grp !! k.
Proof. unfold target_set, line_at. intros ->. reflexivity. Qed.

(** ** Reachable states *)

Lemma replay_record_reachable g r g' :
  reachable g → replay_record g r = Some g' → reachable g'.
Proof.
  intros Hreach. unfold replay_record.
  destruct (command r) as [[] [] [] [] [] [] [] []];
    try (intros [= <-]; exact Hreach);
    try (intros Hacc; exact (reachable_access g _ g' Hreach Hacc)).
  intros Hacc. apply bind_Some in Hacc as (g1 & H1 & H2).
  exact (reachable_access g1 _ g' (reachable_access g _ g1 Hreach H1) H2).
Defined.

Lemma replay_trace_reachable records : ∀ g g',
  reachable g → replay_trace g records = Some g' → reachable g'.
Proof.
  induction records as [|r rest IH]; intros g g' Hreach; simpl.
  - intros [= <-]. exact Hreach.
  - intros Hrun. apply bind_Some in Hrun as (g1 & Hrec & Hrest).
    exact (IH g1 g' (replay_record_reachable g r g1 Hreach Hrec) Hrest).
Defined.

Lemma one_line_cache_reachable : reachable one_line_cache.
Proof. apply (reachable_init 1 1 0). vm_compute. reflexivity. Defined.

Lemma one_line_cache_after_0_reachable : reachable one_line_cache_after_0.
Proof.
  apply (reachable_access one_line_cache 0); [exact one_line_cache_reachable|].
  vm_compute. reflexivity.
Defined.

Lemma two_way_cache_warm_reachable : reachable two_way_cache_warm.
Proof.
  apply (replay_trace_reachable [Lrec 0; Lrec 4; Lrec 0] two_way_cache).
  - apply (reachable_init 1 2 1). vm_compute. reflexivity.
  - vm_compute. reflexivity.
Defined.

Example lru_evicts_least_recent_line :
  access_data two_way_cache_warm 8 = Some two_way_cache_evicted.
Proof. vm_compute. reflexivity. Qed.

(** ** The claims *)

(** C2. When the target set of an address has a valid line with the tag of
    the address, the access is a hit: it is defined (as long as [total_hits]
    is below [INT_MAX]), that line's [lru_counter] receives the value of
    [global_lru_counter], which is incremented afterwards, [total_hits] grows
    by one, [total_misses] and [total_evictions] are unchanged, every other
    line is unchanged, and no line changes its [is_valid] or [tag_value]. *)
Theorem hit_stamps_line_and_counts g a grp i e :
  reachable g →
  target_set g a = Some grp → grp !! i = Some e →
  is_valid e = true → tag_value e = tag_of g a →
  total_hits g < INT_MAX →
  ∃ g', access_data g a = Some g' ∧
    line_at g' (Z.to_nat (set_index_of g a)) i
      = Some {| is_valid := true; tag_value := tag_of g a;
                lru_counter := global_lru_counter g |} ∧
    global_lru_counter g' = global_lru_counter g + 1 ∧
    total_hits g' = total_hits g + 1 ∧
    total_misses g' = total_misses g ∧
    total_evictions g' = total_evictions g ∧
    (∀ n k, ¬ (n = Z.to_nat (set_index_of g a) ∧ k = i) →
            line_at g' n k = line_at g n k) ∧
    (∀ n k, is_valid <$> line_at g' n k = is_valid <$> line_at g n k) ∧
    (∀ n k, tag_value <$> line_at g' n k = tag_value <$> line_at g n k).
Proof.
  intros Hreach Hgrp He Hvalid Htag Hroom.
  pose proof (reachable_wf g Hreach) as Hwf.
  exists (hit_result g a grp i e).
  split; [by apply access_data_present|].
  split.
  { rewrite (line_at_hit_result g a grp i e _ _ Hgrp He).
    rewrite decide_True by auto. unfold touch. rewrite Hvalid, Htag. reflexivity. }
  split; [exact (wf_ull_incr g Hwf)|].
  do 3 (split; [reflexivity|]).
  split; [|split]; intros n k; try intros Hother;
    rewrite (line_at_hit_result g a grp i e _ _ Hgrp He);
    destruct (decide (n = Z.to_nat (set_index_of g a) ∧ k = i)) as [[-> ->]|];
    try reflexivity; try tauto;
    rewrite (line_at_target g a grp i Hgrp), He; reflexivity.
Qed.

Lemma hit_stamps_line_and_counts_witness :
  ∃ g', access_data one_line_cache_after_0 0 = Some g' ∧
    line_at g' 0 0 = Some (fill 0 2) ∧
    global_lru_counter g' = 3 ∧
    total_hits g' = 1 ∧ total_misses g' = 1 ∧ total_evictions g' = 0.
Proof.
  destruct (hit_stamps_line_and_counts one_line_cache_after_0 0 [fill 0 1] 0%nat (fill 0 1))
    as (g' & Hacc & Hline & Hclock & Hh & Hm & He & _);
    [exact one_line_cache_after_0_reachable | reflexivity | reflexivity
    | reflexivity | reflexivity | vm_compute; reflexivity |].
  exists g'. repeat split; assumption.
Defined.

(** C1. On an access that misses (one that increments [total_misses]), the
    line that is overwritten is the one the second loop selects; it has the
    least [lru_counter] of all the lines of the target set, valid or not, and
    every line before it has a strictly greater one. Invalid lines have
    [lru_counter] 0 and valid ones at least 1, so an invalid line, when the
    set has one, is selected before any valid line. *)
Theorem miss_replaces_first_least_recent g a g' :
  reachable g →
  access_data g a = Some g' →
  total_misses g' = total_misses g + 1 →
  ∃ grp m v victim,
    target_set g a = Some grp ∧
    lru_loop grp (Z.to_nat (associativity g)) 0 ULONG_MAX 0 = Some (m, v) ∧
    grp !! v = Some victim ∧
    cache_memory g'
      = <[Z.to_nat (set_index_of g a) :=
            <[v := fill (tag_of g a) (global_lru_counter g)]> grp]> (cache_memory g) ∧
    (∀ k e, grp !! k = Some e → lru_counter victim ≤ lru_counter e) ∧
    (∀ k e, (k < v)%nat → grp !! k = Some e → lru_counter victim < lru_counter e) ∧
    (∀ k e, grp !! k = Some e →
            if is_valid e then 1 ≤ lru_counter e else lru_counter e = 0) ∧
    ((∃ k e, grp !! k = Some e ∧ is_valid e = false) → is_valid victim = false) ∧
    (∀ k e, (k < v)%nat → grp !! k = Some e → is_valid e = true).
Proof.
  intros Hreach Hacc Hmiss.
  pose proof (reachable_wf g Hreach) as Hwf.
  destruct (access_data_wf_inv g a g' Hwf Hacc) as (grp & Hgrp & Hcases).
  destruct Hcases as [(i & e & _ & _ & _ & ->)
                     |(m & v & victim & _ & Hlru & Hleast & Hv & _ & ->)].
  { simpl in Hmiss. lia. }
  assert (∀ k e, grp !! k = Some e →
            if is_valid e then 1 ≤ lru_counter e else lru_counter e = 0) as Hok.
  { intros k e Hk. pose proof (wf_line_range g a grp k e Hwf Hgrp Hk) as Hline.
    unfold line_ok in Hline. destruct (is_valid e); lia. }
  destruct Hleast as (victim' & Hv' & Hmin & Hfirst).
  assert (victim' = victim) as -> by congruence.
  exists grp, m, v, victim.
  do 4 (split; [first [assumption | reflexivity]|]).
  split; [exact Hmin|]. split; [exact Hfirst|]. split; [exact Hok|]. split.
  - intros (k & e & Hk & Hinvalid).
    pose proof (Hok k e Hk) as Hk0. rewrite Hinvalid in Hk0.
    pose proof (Hok v victim Hv) as Hv0. pose proof (Hmin k e Hk).
    destruct (is_valid victim); [lia|reflexivity].
  - intros k e Hlt Hk.
    pose proof (Hok k e Hk) as Hk0. pose proof (Hfirst k e Hlt Hk).
    pose proof (Hok v victim Hv) as Hv0.
    destruct (is_valid e); [reflexivity|].
    destruct (is_valid victim); lia.
Qed.

Lemma miss_replaces_first_least_recent_witness :
  ∃ grp m v victim,
    target_set two_way_cache_warm 8 = Some grp ∧
    lru_loop grp 2 0 ULONG_MAX 0 = Some (m, v) ∧
    grp !! v = Some victim ∧
    cache_memory two_way_cache_evicted
      = <[0%nat := <[v := fill 2 4]> grp]> (cache_memory two_way_cache_warm) ∧
    (∀ k e, grp !! k = Some e → lru_counter victim ≤ lru_counter e) ∧
    (∀ k e, (k < v)%nat → grp !! k = Some e → lru_counter victim < lru_counter e).
Proof.
  destruct (miss_replaces_first_least_recent two_way_cache_warm 8 two_way_cache_evicted)
    as (grp & m & v & victim & Hgrp & Hlru & Hv & Hmem & Hmin & Hfirst & _);
    [exact two_way_cache_warm_reachable | vm_compute; reflexivity | reflexivity |].
  exists grp, m, v, victim. repeat split; assumption.
Defined.

(** C3. On an access that misses, [total_evictions] is incremented exactly
    when the line that the second loop selected was valid; a miss that fills
    an invalid line increments [total_misses] and leaves [total_evictions]. *)
Theorem miss_evicts_iff_victim_valid g a g' :
  access_data g a = Some g' →
  total_misses g' = total_misses g + 1 →
  ∃ grp m v victim,
    target_set g a = Some grp ∧
    lru_loop grp (Z.to_nat (associativity g)) 0 ULONG_MAX 0 = Some (m, v) ∧
    grp !! v = Some victim ∧
    (total_evictions g' = total_evictions g + 1 ↔ is_valid victim = true) ∧
    (is_valid victim = false → total_evictions g' = total_evictions g).
Proof.
  intros Hacc Hmiss.
  destruct (access_data_inv g a g' Hacc) as (_ & _ & grp & Hgrp & Hcases).
  destruct Hcases as [(i & e & _ & _ & _ & ->)
                     |(m & v & victim & _ & Hlru & Hv & _ & _ & ->)].
  { simpl in Hmiss. lia. }
  exists grp, m, v, victim. do 3 (split; [assumption|]).
  simpl. destruct (is_valid victim); split; try split;
    intros; try reflexivity; try discriminate; lia.
Qed.

Lemma miss_evicts_iff_victim_valid_witness :
  ∃ grp m v victim,
    target_set one_line_cache 0 = Some grp ∧
    lru_loop grp 1 0 ULONG_MAX 0 = Some (m, v) ∧
    grp !! v = Some victim ∧
    (total_evictions one_line_cache_after_0 = total_evictions one_line_cache + 1
     ↔ is_valid victim = true) ∧
    (is_valid victim = false →
     total_evictions one_line_cache_after_0 = total_evictions one_line_cache).
Proof.
  apply (miss_evicts_iff_victim_valid one_line_cache 0 one_line_cache_after_0);
    [vm_compute; reflexivity | reflexivity].
Defined.

(** C10. A defined access leaves the geometry ([set_index_bits],
    [block_offset_bits], [associativity], [number_of_sets],
    [block_size_bytes], [set_index_mask]) and the shape of the table as they
    were, leaves every set other than set
    [(address >> block_offset_bits) & set_index_mask] as it was, and changes
    at most one line of that set. *)
Theorem access_changes_one_line_of_target_set g a g' :
  access_data g a = Some g' →
  (set_index_bits g' = set_index_bits g ∧
   block_offset_bits g' = block_offset_bits g ∧
   associativity g' = associativity g ∧
   number_of_sets g' = number_of_sets g ∧
   block_size_bytes g' = block_size_bytes g ∧
   set_index_mask g' = set_index_mask g) ∧
  length (cache_memory g') = length (cache_memory g) ∧
  (∀ n, n ≠ Z.to_nat (Z.land (Z.shiftr a (block_offset_bits g)) (set_index_mask g)) →
        cache_memory g' !! n = cache_memory g !! n) ∧
  ∃ i, ∀ n k,
    ¬ (n = Z.to_nat (Z.land (Z.shiftr a (block_offset_bits g)) (set_index_mask g)) ∧ k = i) →
    line_at g' n k = line_at g n k.
Proof.
  intros Hacc.
  destruct (access_data_inv g a g' Hacc) as (_ & _ & grp & Hgrp & Hcases).
  fold (set_index_of g a).
  destruct Hcases as [(i & e & _ & He & _ & ->)
                     |(m & v & victim & _ & _ & Hv & _ & _ & ->)].
  - split; [simpl; tauto|]. split; [simpl; apply length_insert|]. split.
    + intros n Hn. simpl. apply list_lookup_insert_ne. congruence.
    + exists i. intros n k Hother.
      rewrite (line_at_hit_result g a grp i e _ _ Hgrp He).
      rewrite decide_False by assumption. reflexivity.
  - split; [simpl; tauto|]. split; [simpl; apply length_insert|]. split.
    + intros n Hn. simpl. apply list_lookup_insert_ne. congruence.
    + exists v. intros n k Hother.
      rewrite (line_at_miss_result g a grp v victim _ _ Hgrp Hv).
      rewrite decide_False by assumption. reflexivity.
Qed.

Lemma access_changes_one_line_of_target_set_witness :
  cache_memory one_line_cache_after_0 !! 1%nat = cache_memory one_line_cache !! 1%nat.
Proof.
  destruct (access_changes_one_line_of_target_set one_line_cache 0 one_line_cache_after_0)
    as (_ & _ & Hsets & _); [vm_compute; reflexivity|].
  apply Hsets. vm_compute. discriminate.
Defined.

(** ** Modify records *)

(** After a defined access to an address, its target set has a valid line
    with its tag. *)
Lemma access_data_installs g a g' :
  wf g → access_data g a = Some g' →
  ∃ grp i e, target_set g' a = Some grp ∧ grp !! i = Some e ∧
             holds_tag (tag_of g' a) e.
Proof.
  intros Hwf Hacc.
  destruct (access_data_wf_inv g a g' Hwf Hacc) as (grp & Hgrp & Hcases).
  pose proof (lookup_lt_Some _ _ _ Hgrp) as Hn.
  destruct Hcases as [(i & e & He & [Hvalid Htag] & _ & ->)
                     |(m & v & victim & _ & _ & _ & Hv & _ & ->)].
  - exists (<[i := touch e (global_lru_counter g)]> grp), i, (touch e (global_lru_counter g)).
    split; [|split].
    + unfold target_set, set_index_of. simpl. apply list_lookup_insert_eq. exact Hn.
    + apply list_lookup_insert_eq. by apply lookup_lt_Some in He.
    + split; assumption.
  - exists (<[v := fill (tag_of g a) (global_lru_counter g)]> grp), v,
      (fill (tag_of g a) (global_lru_counter g)).
    split; [|split].
    + unfold target_set, set_index_of. simpl. apply list_lookup_insert_eq. exact Hn.
    + apply list_lookup_insert_eq. by apply lookup_lt_Some in Hv.
    + split; reflexivity.
Qed.

(** C4. A Modify record issues two accesses to its address, the second on
    the state that the first one left. Once the first access has returned,
    the second one is defined (as long as [total_hits] is below [INT_MAX])
    and is a hit, so the record adds either two hits, or one miss and one
    hit, never two misses. With at least one line per set and room in the
    counters both accesses are defined. *)
Theorem modify_second_access_hits g r :
  reachable g →
  command r = "M"%char →
  (∀ g1, access_data g (address r) = Some g1 →
         total_hits g1 < INT_MAX →
         ∃ g2,
           replay_record g r = Some g2 ∧
           access_data g1 (address r) = Some g2 ∧
           total_hits g2 = total_hits g1 + 1 ∧
           total_misses g2 = total_misses g1 ∧
           total_evictions g2 = total_evictions g1 ∧
           ((total_hits g2 = total_hits g + 2 ∧ total_misses g2 = total_misses g)
            ∨ (total_hits g2 = total_hits g + 1 ∧
               total_misses g2 = total_misses g + 1))) ∧
  (0 < associativity g →
   total_hits g + 1 < INT_MAX → total_misses g < INT_MAX →
   is_Some (replay_record g r)).
Proof.
  intros Hreach Hcmd.
  pose proof (reachable_wf g Hreach) as Hwf.
  assert (∀ g1, access_data g (address r) = Some g1 → total_hits g1 < INT_MAX →
            ∃ grp i e, replay_record g r = Some (hit_result g1 (address r) grp i e) ∧
                       access_data g1 (address r) = Some (hit_result g1 (address r) grp i e))
    as Hsecond.
  { intros g1 Hfirst Hroom.
    pose proof (access_data_wf g _ g1 Hwf Hfirst) as Hwf1.
    destruct (access_data_installs g _ g1 Hwf Hfirst) as (grp & i & e & Hgrp & He & Hholds).
    pose proof (access_data_present g1 _ grp i e Hwf1 Hgrp He Hholds Hroom) as Hhit.
    exists grp, i, e. split; [|exact Hhit].
    unfold replay_record. rewrite Hcmd, Hfirst. exact Hhit. }
  split.
  - intros g1 Hfirst Hroom.
    destruct (Hsecond g1 Hfirst Hroom) as (grp & i & e & Hrec & Hhit).
    exists (hit_result g1 (address r) grp i e).
    split; [exact Hrec|]. split; [exact Hhit|].
    do 3 (split; [reflexivity|]). simpl.
    destruct (access_data_counts g _ g1 Hfirst) as [(-> & -> & _)|(-> & -> & _)]; lia.
  - intros HE Hh Hm.
    destruct (access_data_defined g (address r) Hwf HE ltac:(lia) Hm) as [g1 Hfirst].
    destruct (Hsecond g1 Hfirst) as (grp & i & e & -> & _); [|eauto].
    destruct (access_data_counts g _ g1 Hfirst) as [(-> & _)|(-> & _)]; lia.
Qed.

Lemma modify_second_access_hits_witness :
  ∃ g2, replay_record one_line_cache (Mrec 0) = Some g2 ∧
        total_hits g2 = 1 ∧ total_misses g2 = 1.
Proof.
  destruct (modify_second_access_hits one_line_cache (Mrec 0)) as [Hsecond _];
    [exact one_line_cache_reachable | reflexivity |].
  destruct (Hsecond one_line_cache_after_0) as (g2 & Hrec & _ & Hh & Hm & _);
    [vm_compute; reflexivity | vm_compute; reflexivity |].
  exists g2. split; [exact Hrec|]. split; [exact Hh | exact Hm].
Defined.

(** ** Replaying a trace *)

(** The three arms of the [switch]. *)
Lemma replay_record_cases g r :
  (is_load_store r = true ∧ is_modify r = false ∧ accesses_of r = 1 ∧
   replay_record g r = access_data g (address r))
  ∨ (is_load_store r = false ∧ is_modify r = true ∧ accesses_of r = 2 ∧
     replay_record g r = (g1 ← access_data g (address r); access_data g1 (address r)))
  ∨ (is_load_store r = false ∧ is_modify r = false ∧ accesses_of r = 0 ∧
     replay_record g r = Some g).
Proof.
  unfold replay_record, accesses_of, is_load_store, is_modify.
  destruct (command r) as [[] [] [] [] [] [] [] []]; simpl;
    first [ left; repeat split; reflexivity
          | right; left; repeat split; reflexivity
          | right; right; repeat split; reflexivity ].
Qed.

Lemma accesses_of_nonneg r : 0 ≤ accesses_of r.
Proof.
  destruct (replay_record_cases (fresh_cache 0 0 0) r)
    as [(_ & _ & -> & _)|[(_ & _ & -> & _)|(_ & _ & -> & _)]]; lia.
Qed.

Lemma accesses_in_nonneg records : 0 ≤ accesses_in records.
Proof.
  induction records as [|r rest IH]; simpl; [lia|].
  pose proof (accesses_of_nonneg r). lia.
Qed.

Lemma accesses_in_count records :
  accesses_in records
  = count_records is_load_store records + 2 * count_records is_modify records.
Proof.
  unfold count_records. induction records as [|r rest IH]; simpl; [reflexivity|].
  rewrite IH.
  destruct (replay_record_cases (fresh_cache 0 0 0) r)
    as [(-> & -> & -> & _)|[(-> & -> & -> & _)|(-> & -> & -> & _)]];
    simpl length; lia.
Qed.

Lemma replay_record_counts g r g' :
  replay_record g r = Some g' →
  total_hits g' + total_misses g' = total_hits g + total_misses g + accesses_of r.
Proof.
  destruct (replay_record_cases g r)
    as [(_ & _ & -> & ->)|[(_ & _ & -> & ->)|(_ & _ & -> & ->)]].
  - intros Hacc. destruct (access_data_counts g _ g' Hacc) as [(-> & -> & _)|(-> & -> & _)]; lia.
  - intros Hacc. apply bind_Some in Hacc as (g1 & H1 & H2).
    destruct (access_data_counts g _ g1 H1) as [(Hh1 & Hm1 & _)|(Hh1 & Hm1 & _)];
      destruct (access_data_counts g1 _ g' H2) as [(-> & -> & _)|(-> & -> & _)]; lia.
  - intros [= <-]. lia.
Qed.

Lemma replay_trace_counts records : ∀ g g',
  replay_trace g records = Some g' →
  total_hits g' + total_misses g' = total_hits g + total_misses g + accesses_in records.
Proof.
  induction records as [|r rest IH]; intros g g'; simpl.
  - intros [= <-]. lia.
  - intros H. apply bind_Some in H as (g1 & Hrec & Hrest).
    rewrite (IH g1 g' Hrest), (replay_record_counts g r g1 Hrec). lia.
Qed.

Lemma access_data_associativity g a g' :
  access_data g a = Some g' → associativity g' = associativity g.
Proof.
  intros Hacc.
  destruct (access_data_inv g a g' Hacc) as (_ & _ & grp & _ & Hcases).
  destruct Hcases as [(i & e & _ & _ & _ & ->)|(m & v & victim & _ & _ & _ & _ & _ & ->)];
    reflexivity.
Qed.

Lemma replay_record_defined g r :
  wf g → 0 < associativity g →
  total_hits g + total_misses g + accesses_of r ≤ INT_MAX →
  ∃ g', replay_record g r = Some g' ∧ wf g' ∧ associativity g' = associativity g.
Proof.
  intros Hwf HE Hroom.
  pose proof (wf_hits g Hwf). pose proof (wf_misses g Hwf).
  destruct (replay_record_cases g r)
    as [(_ & _ & Hn & ->)|[(_ & _ & Hn & ->)|(_ & _ & Hn & ->)]]; rewrite Hn in Hroom.
  - destruct (access_data_defined g (address r) Hwf HE) as [g' Hacc]; [lia..|].
    exists g'. split; [assumption|]. split.
    + exact (access_data_wf g _ g' Hwf Hacc).
    + exact (access_data_associativity g _ g' Hacc).
  - destruct (access_data_defined g (address r) Hwf HE) as [g1 H1]; [lia..|].
    pose proof (access_data_wf g _ g1 Hwf H1) as Hwf1.
    pose proof (access_data_associativity g _ g1 H1) as HE1.
    destruct (access_data_defined g1 (address r) Hwf1) as [g' H2].
    { lia. }
    { destruct (access_data_counts g _ g1 H1) as [(Hh1 & Hm1 & _)|(Hh1 & Hm1 & _)]; lia. }
    { destruct (access_data_counts g _ g1 H1) as [(Hh1 & Hm1 & _)|(Hh1 & Hm1 & _)]; lia. }
    exists g'. rewrite H1. simpl. split; [assumption|]. split.
    + exact (access_data_wf g1 _ g' Hwf1 H2).
    + rewrite (access_data_associativity g1 _ g' H2). exact HE1.
  - exists g. auto.
Qed.

Lemma replay_trace_defined records : ∀ g,
  wf g → 0 < associativity g →
  total_hits g + total_misses g + accesses_in records ≤ INT_MAX →
  is_Some (replay_trace g records).
Proof.
  induction records as [|r rest IH]; intros g Hwf HE Hroom; simpl; [eauto|].
  simpl in Hroom. pose proof (accesses_in_nonneg rest). pose proof (accesses_of_nonneg r).
  destruct (replay_record_defined g r Hwf HE) as (g1 & Hrec & Hwf1 & HE1); [lia|].
  rewrite Hrec. simpl. apply IH; [assumption|lia|].
  rewrite (replay_record_counts g r g1 Hrec). lia.
Qed.

(** C5. After a replay from a freshly initialised cache,
    [total_hits + total_misses] is the number of L and S records plus twice
    the number of M records; a record with any other command leaves the
    state as it is. The replay is defined when every set has at least one
    line and that number of accesses fits an [int]. *)
Theorem replay_conserves_accesses s E b g0 records :
  configure s E b = Some g0 →
  (∀ g, replay_trace g0 records = Some g →
        total_hits g + total_misses g
        = count_records is_load_store records + 2 * count_records is_modify records) ∧
  (∀ g r, is_load_store r = false → is_modify r = false → replay_record g r = Some g) ∧
  (0 < E →
   count_records is_load_store records + 2 * count_records is_modify records ≤ INT_MAX →
   is_Some (replay_trace g0 records)).
Proof.
  intros Hconf. pose proof (configure_wf s E b g0 Hconf) as Hwf.
  apply configure_Some in Hconf as (_ & _ & ->).
  rewrite <- accesses_in_count. split; [|split].
  - intros g Hrun. rewrite (replay_trace_counts records _ g Hrun). simpl. lia.
  - intros g r Hls Hm.
    destruct (replay_record_cases g r)
      as [(Hls' & _)|[(_ & Hm' & _)|(_ & _ & _ & ->)]]; congruence.
  - intros HE Hroom. apply replay_trace_defined; [assumption|exact HE|simpl; lia].
Qed.

Lemma replay_conserves_accesses_witness :
  ∃ g, replay_trace (fresh_cache 1 1 0) [Lrec 0; Mrec 2; Irec 4; Srec 1] = Some g ∧
       total_hits g + total_misses g = 4.
Proof.
  destruct (replay_conserves_accesses 1 1 0 (fresh_cache 1 1 0)
              [Lrec 0; Mrec 2; Irec 4; Srec 1]) as (Hsum & _ & Hdefined);
    [vm_compute; reflexivity|].
  destruct Hdefined as [g Hrun]; [lia | vm_compute; discriminate |].
  exists g. split; [exact Hrun | exact (Hsum g Hrun)].
Defined.

(** C6. In every state reachable from a freshly initialised cache no two
    valid lines of a set hold the same tag, and every defined access leads
    to a state where this is so again. *)
Theorem valid_lines_of_a_set_have_distinct_tags g :
  reachable g →
  no_shared_tags g ∧
  ∀ a g', access_data g a = Some g' → no_shared_tags g'.
Proof.
  intros Hreach. pose proof (reachable_wf g Hreach) as Hwf. split.
  - intros n grp Hn. exact (Forall_lookup_1 _ _ _ _ (wf_tags g Hwf) Hn).
  - intros a g' Hacc n grp Hn.
    pose proof (access_data_wf g a g' Hwf Hacc) as Hwf'.
    exact (Forall_lookup_1 _ _ _ _ (wf_tags g' Hwf') Hn).
Qed.

Lemma valid_lines_of_a_set_have_distinct_tags_witness :
  no_shared_tags two_way_cache_warm ∧ no_shared_tags two_way_cache_evicted.
Proof.
  destruct (valid_lines_of_a_set_have_distinct_tags two_way_cache_warm
              two_way_cache_warm_reachable) as [Hnow Hnext].
  split; [exact Hnow|].
  apply (Hnext 8). vm_compute. reflexivity.
Defined.

(** ** The scenarios of the specification *)

Example scenario_one_load :
  counters <$> replay_trace (fresh_cache 1 1 0) [Lrec 0] = Some (0, 1, 0).
Proof. vm_compute. reflexivity. Qed.

Example scenario_repeated_load :
  counters <$> replay_trace (fresh_cache 1 1 0) [Lrec 0; Lrec 0] = Some (1, 1, 0).
Proof. vm_compute. reflexivity. Qed.

Example scenario_modify :
  counters <$> replay_trace (fresh_cache 1 1 0) [Mrec 0] = Some (1, 1, 0).
Proof. vm_compute. reflexivity. Qed.

(** With one offset bit [main] accepts the geometry; the addresses 0 and 4
    then play the part of 0 and 2. *)
Example main_two_loads_one_offset_bit :
  main 1 1 1 (Some [Lrec 0; Lrec 4]) = Summary 0 2 1.
Proof. vm_compute. reflexivity. Qed.

(** C7, as stated, fails on the program: [main] takes [block_offset_bits = 0]
    for a missing argument and exits before the cache is initialised, so no
    summary is printed for this geometry. *)
Lemma main_rejects_zero_offset_bits :
  main 1 1 0 (Some [Lrec 0; Lrec 2]) = MissingArgument ∧
  main 1 1 0 (Some [Lrec 0; Lrec 2]) ≠ Summary 0 2 1.
Proof. split; [vm_compute; reflexivity | vm_compute; discriminate]. Qed.

(** C7, amended. With [set_index_bits = 1], [block_offset_bits = 0] and
    [associativity = 1] set up by lines 190 to 193 (past the argument test of
    [main], which refuses this geometry), replaying L 0 then L 2 gives 0
    hits, 2 misses and 1 eviction: both addresses have set index 0, with the
    tags 0 and 1. *)
Theorem two_loads_same_set_distinct_tags :
  configure 1 1 0 = Some (fresh_cache 1 1 0) ∧
  set_index_of (fresh_cache 1 1 0) 0 = 0 ∧
  set_index_of (fresh_cache 1 1 0) 2 = 0 ∧
  tag_of (fresh_cache 1 1 0) 0 = 0 ∧
  tag_of (fresh_cache 1 1 0) 2 = 1 ∧
  counters <$> replay_trace (fresh_cache 1 1 0) [Lrec 0; Lrec 2] = Some (0, 2, 1).
Proof. repeat split; vm_compute; reflexivity. Qed.

(** C8, as stated, fails: a negative associativity passes the test of line
    184, and so does a pair of bit counts whose sum exceeds 63; the program
    goes on to [init_cache] and [replay_trace]. *)
Lemma main_accepts_negative_associativity :
  main 1 (-1) 1 (Some []) = Summary 0 0 0 ∧
  main 1 (-1) 1 (Some [Lrec 0]) = Undefined ∧
  missing_argument 32 1 32 (Some []) = false ∧
  main 32 1 32 (Some []) ≠ MissingArgument.
Proof.
  repeat split; try (vm_compute; reflexivity). vm_compute. discriminate.
Qed.

(** C8, amended. [main] stops with the message of line 185 and status 1,
    before [init_cache] and before any access, exactly when
    [set_index_bits], [associativity] or [block_offset_bits] is 0 or no trace
    file was named. *)
Theorem main_rejects_exactly_zero_arguments s E b trace_file :
  main s E b trace_file = MissingArgument
  ↔ s = 0 ∨ E = 0 ∨ b = 0 ∨ trace_file = None.
Proof.
  unfold main.
  assert (missing_argument s E b trace_file = true
          ↔ s = 0 ∨ E = 0 ∨ b = 0 ∨ trace_file = None) as Htest.
  { unfold missing_argument.
    rewrite !orb_true_iff, !Z.eqb_eq, bool_decide_eq_true. tauto. }
  destruct (missing_argument s E b trace_file).
  - split; [intros _; by apply Htest | reflexivity].
  - split.
    + destruct (_ ≫= _); discriminate.
    + intros H. apply Htest in H. discriminate.
Qed.

(** C9, as stated, fails: with 31 index bits (and 1 offset bit, a sum well
    below 63) [1 << 31] is not an [int], and no value of an [int] is 2^31. *)
Lemma pow_31_is_not_an_int :
  INT_MAX < 2 ^ 31 ∧
  pow 2 31 = None ∧
  ¬ ∃ g, configure 31 1 1 = Some g ∧ number_of_sets g = 2 ^ 31.
Proof.
  split; [vm_compute; reflexivity|]. split; [vm_compute; reflexivity|].
  intros (g & Hconf & _). apply configure_Some in Hconf as (Hs & _). lia.
Qed.

(** C9, amended. For bit counts between 0 and 30 the shifts are defined and
    give exact powers of two: [number_of_sets] is [2 ^ set_index_bits],
    [block_size_bytes] is [2 ^ block_offset_bits] and [set_index_mask] is
    [2 ^ set_index_bits - 1]. *)
Theorem derived_sizes_are_powers_of_two s E b :
  0 ≤ s ≤ 30 → 0 ≤ b ≤ 30 →
  pow 2 s = Some (Z.shiftl 1 s) ∧ pow 2 b = Some (Z.shiftl 1 b) ∧
  ∃ g, configure s E b = Some g ∧
       number_of_sets g = 2 ^ s ∧
       block_size_bytes g = 2 ^ b ∧
       set_index_mask g = 2 ^ s - 1.
Proof.
  intros Hs Hb.
  split; [rewrite shiftl1_pow2 by lia; by apply pow_Some|].
  split; [rewrite shiftl1_pow2 by lia; by apply pow_Some|].
  exists (fresh_cache s E b). split; [by apply configure_Some|].
  repeat split.
Qed.

Lemma derived_sizes_are_powers_of_two_witness :
  ∃ g, configure 4 2 5 = Some g ∧
       number_of_sets g = 16 ∧ block_size_bytes g = 32 ∧ set_index_mask g = 15.
Proof.
  destruct (derived_sizes_are_powers_of_two 4 2 5) as (_ & _ & g & Hc & Hn & Hb & Hm);
    [lia | lia |].
  exists g. repeat split; assumption.
Defined.

(** * Further properties of the cache model *)

(** ** Counters and clock *)

(** X1. In every reachable state the clock is one more than the number of
    accesses classified so far, so it has not wrapped around; the counters
    are non-negative [int] values and there are at most as many evictions as
    misses. *)
Theorem reachable_counters_and_clock g :
  reachable g →
  global_lru_counter g = 1 + total_hits g + total_misses g ∧
  1 ≤ global_lru_counter g < 2 ^ 64 ∧
  0 ≤ total_hits g ≤ INT_MAX ∧
  0 ≤ total_misses g ≤ INT_MAX ∧
  0 ≤ total_evictions g ≤ total_misses g.
Proof.
  intros Hreach. pose proof (reachable_wf g Hreach) as Hwf.
  pose proof (wf_clock_range g Hwf).
  split; [apply Hwf|]. split; [lia|].
  split; [apply Hwf|]. split; apply Hwf.
Qed.

Lemma reachable_counters_and_clock_witness :
  global_lru_counter two_way_cache_warm
  = 1 + total_hits two_way_cache_warm + total_misses two_way_cache_warm.
Proof.
  apply (reachable_counters_and_clock two_way_cache_warm).
  exact two_way_cache_warm_reachable.
Defined.

(** ** Bounds *)

(** X2. In a reachable state with at least one line per set, an access to
    any address is defined (no shift out of range, no line outside the
    table) as long as [total_hits] and [total_misses] are below [INT_MAX];
    it leads to a reachable state and adds one to exactly one of the two. *)
Theorem reachable_access_defined g a :
  reachable g → 0 < associativity g →
  total_hits g < INT_MAX → total_misses g < INT_MAX →
  ∃ g', access_data g a = Some g' ∧ reachable g' ∧
        ((total_hits g' = total_hits g + 1 ∧ total_misses g' = total_misses g)
         ∨ (total_hits g' = total_hits g ∧ total_misses g' = total_misses g + 1)).
Proof.
  intros Hreach HE Hh Hm. pose proof (reachable_wf g Hreach) as Hwf.
  destruct (access_data_defined g a Hwf HE Hh Hm) as [g' Hacc].
  exists g'. split; [assumption|]. split; [exact (reachable_access g a g' Hreach Hacc)|].
  destruct (access_data_counts g a g' Hacc) as [(? & ? & _)|(? & ? & _)]; auto.
Qed.

Lemma reachable_access_defined_witness :
  ∃ g', access_data two_way_cache_warm 8 = Some g' ∧ reachable g'.
Proof.
  destruct (reachable_access_defined two_way_cache_warm 8) as (g' & Hacc & Hreach & _);
    [exact two_way_cache_warm_reachable | reflexivity
    | vm_compute; reflexivity | vm_compute; reflexivity |].
  exists g'. split; assumption.
Defined.

Lemma access_data_empty_sets g a :
  wf g → associativity g ≤ 0 → access_data g a = None.
Proof.
  intros Hwf HE.
  destruct (access_data g a) as [g'|] eqn:Hacc; [exfalso|reflexivity].
  destruct (access_data_wf_inv g a g' Hwf Hacc) as (grp & Hgrp & Hcases).
  pose proof (wf_group_length g a grp Hwf Hgrp) as Hlen.
  destruct Hcases as [(i & e & He & _)|(m & v & victim & _ & _ & _ & Hv & _)].
  - apply lookup_lt_Some in He. lia.
  - apply lookup_lt_Some in Hv. lia.
Qed.

(** X3. With a non-positive associativity the sets have no line:
    [access_data] reads line 0 of an empty set, whatever the address. *)
Theorem nonpositive_associativity_undefined g a :
  reachable g → associativity g ≤ 0 → access_data g a = None.
Proof.
  intros Hreach. exact (access_data_empty_sets g a (reachable_wf g Hreach)).
Qed.

Lemma nonpositive_associativity_undefined_witness :
  access_data (fresh_cache 1 (-1) 1) 0 = None.
Proof.
  apply nonpositive_associativity_undefined; [|vm_compute; discriminate].
  apply (reachable_init 1 (-1) 1). vm_compute. reflexivity.
Defined.

(** ** Occupancy *)

Section Total.
Context {A : Type} (f : A → Z).

Lemma total_insert (l : list A) i x y :
  l !! i = Some y → total f (<[i := x]> l) = total f l - f y + f x.
Proof.
  revert i. induction l as [|z l IH]; intros [|i]; simpl; try discriminate.
  - intros [= ->]. lia.
  - intros Hi. rewrite (IH i Hi). lia.
Qed.

Lemma total_replicate n x : total f (replicate n x) = Z.of_nat n * f x.
Proof. induction n as [|n IH]; simpl; [reflexivity|]. rewrite IH. lia. Qed.

Lemma total_bounds (l : list A) c :
  Forall (λ x, 0 ≤ f x ≤ c) l → 0 ≤ total f l ≤ Z.of_nat (length l) * c.
Proof.
  induction 1 as [|x l Hx _ IH]; simpl; [lia|]. lia.
Qed.

End Total.

Lemma valid_lines_in_bounds grp : 0 ≤ valid_lines_in grp ≤ Z.of_nat (length grp) * 1.
Proof.
  apply total_bounds. apply Forall_forall. intros e _. destruct (is_valid e); lia.
Qed.

Lemma valid_lines_in_insert grp i x y :
  grp !! i = Some y →
  valid_lines_in (<[i := x]> grp)
  = valid_lines_in grp - (if is_valid y then 1 else 0) + (if is_valid x then 1 else 0).
Proof. intros Hi. unfold valid_lines_in. by rewrite (total_insert _ _ _ _ y Hi). Qed.

Lemma valid_lines_hit_result g a grp i e :
  target_set g a = Some grp → grp !! i = Some e →
  valid_lines (hit_result g a grp i e) = valid_lines g.
Proof.
  intros Hgrp He. unfold valid_lines, hit_result. simpl.
  rewrite (total_insert _ _ _ _ grp Hgrp).
  rewrite (valid_lines_in_insert _ _ _ e He). simpl. lia.
Qed.

Lemma valid_lines_miss_result g a grp v victim :
  target_set g a = Some grp → grp !! v = Some victim →
  valid_lines (miss_result g a grp v victim)
  = valid_lines g + (if is_valid victim then 0 else 1).
Proof.
  intros Hgrp Hv. unfold valid_lines, miss_result. simpl.
  rewrite (total_insert _ _ _ _ grp Hgrp).
  rewrite (valid_lines_in_insert _ _ _ victim Hv). simpl.
  destruct (is_valid victim); lia.
Qed.

Lemma reachable_occupancy g :
  reachable g → valid_lines g = total_misses g - total_evictions g.
Proof.
  induction 1 as [s E b g Hconf|g a g' Hreach IH Hacc].
  - apply configure_Some in Hconf as (_ & _ & ->).
    unfold valid_lines, fresh_cache. simpl. rewrite total_replicate.
    unfold valid_lines_in. rewrite total_replicate. simpl. lia.
  - pose proof (reachable_wf g Hreach) as Hwf.
    destruct (access_data_wf_inv g a g' Hwf Hacc) as (grp & Hgrp & Hcases).
    destruct Hcases as [(i & e & He & _ & _ & ->)
                       |(m & v & victim & _ & _ & _ & Hv & _ & ->)].
    + rewrite (valid_lines_hit_result g a grp i e Hgrp He). simpl. exact IH.
    + rewrite (valid_lines_miss_result g a grp v victim Hgrp Hv). simpl.
      destruct (is_valid victim); lia.
Qed.

(** X4. In every reachable state the number of valid lines of the table is
    [total_misses - total_evictions]: every miss fills a line, and only an
    eviction keeps the number of valid lines from growing. That number never
    exceeds the capacity, [number_of_sets] times [associativity]. *)
Theorem valid_lines_are_misses_minus_evictions g :
  reachable g →
  valid_lines g = total_misses g - total_evictions g ∧
  total_misses g - total_evictions g
  ≤ number_of_sets g * Z.max 0 (associativity g).
Proof.
  intros Hreach. pose proof (reachable_occupancy g Hreach) as Hocc.
  split; [exact Hocc|]. rewrite <- Hocc.
  pose proof (reachable_wf g Hreach) as Hwf.
  assert (Forall (λ grp, 0 ≤ valid_lines_in grp ≤ Z.max 0 (associativity g))
                 (cache_memory g)) as Hrows.
  { eapply Forall_impl; [apply (wf_cols g Hwf)|]. intros grp Hlen. simpl in Hlen.
    pose proof (valid_lines_in_bounds grp). lia. }
  pose proof (total_bounds valid_lines_in (cache_memory g) _ Hrows) as Hb.
  rewrite (wf_rows g Hwf) in Hb.
  pose proof (wf_sets g Hwf) as Hsets. pose proof (wf_s g Hwf).
  assert (0 < number_of_sets g) by (rewrite Hsets; apply Z.pow_pos_nonneg; lia).
  unfold valid_lines. rewrite Z2Nat.id in Hb by lia. lia.
Qed.

Lemma valid_lines_are_misses_minus_evictions_witness :
  valid_lines two_way_cache_warm = 2 ∧
  total_misses two_way_cache_warm - total_evictions two_way_cache_warm ≤ 4.
Proof.
  exact (valid_lines_are_misses_minus_evictions two_way_cache_warm
           two_way_cache_warm_reachable).
Defined.

(** ** Fill order and evictions *)

Lemma wf_line_at_ok g n k e :
  wf g → line_at g n k = Some e → line_ok (global_lru_counter g) e.
Proof.
  intros Hwf Hline. unfold line_at in Hline.
  apply bind_Some in Hline as (grp & Hgrp & He).
  exact (Forall_lookup_1 _ _ _ _ (Forall_lookup_1 _ _ _ _ (wf_lines g Hwf) Hgrp) He).
Qed.

(** In a well-formed state the first least recent line of a set comes after
    valid lines only, and when it is valid itself the set is full. *)
Lemma least_recent_after_valid g a grp v :
  wf g → target_set g a = Some grp → least_recent grp v →
  ∀ k e, (k < v)%nat → grp !! k = Some e → is_valid e = true.
Proof.
  intros Hwf Hgrp (victim & Hv & _ & Hfirst) k e Hlt Hk.
  pose proof (wf_line_range g a grp k e Hwf Hgrp Hk) as Hok.
  pose proof (wf_line_range g a grp v victim Hwf Hgrp Hv) as Hokv.
  pose proof (Hfirst k e Hlt Hk). unfold line_ok in *.
  destruct (is_valid e); [reflexivity|]. destruct (is_valid victim); lia.
Qed.

Lemma least_recent_valid_full g a grp v victim :
  wf g → target_set g a = Some grp → least_recent grp v →
  grp !! v = Some victim → is_valid victim = true → full grp.
Proof.
  intros Hwf Hgrp (victim' & Hv' & Hmin & _) Hv Hvalid k e Hk.
  assert (victim' = victim) as -> by congruence.
  pose proof (wf_line_range g a grp k e Hwf Hgrp Hk) as Hok.
  pose proof (wf_line_range g a grp v victim Hwf Hgrp Hv) as Hokv.
  pose proof (Hmin k e Hk). unfold line_ok in *. rewrite Hvalid in Hokv.
  destruct (is_valid e); [reflexivity|lia].
Qed.

Lemma filled_in_order_touch grp i e c :
  filled_in_order grp → grp !! i = Some e →
  filled_in_order (<[i := touch e c]> grp).
Proof.
  intros Hord He j k ej ek Hlt Hj Hk Hvalid.
  apply list_lookup_insert_Some in Hj as [(<- & <- & _)|[_ Hj]];
    apply list_lookup_insert_Some in Hk as [(<- & <- & _)|[_ Hk]]; simpl in *.
  - lia.
  - exact (Hord i k e ek Hlt He Hk Hvalid).
  - exact (Hord j i ej e Hlt Hj He Hvalid).
  - exact (Hord j k ej ek Hlt Hj Hk Hvalid).
Qed.

Lemma filled_in_order_fill grp v tag c :
  filled_in_order grp →
  (∀ k e, (k < v)%nat → grp !! k = Some e → is_valid e = true) →
  filled_in_order (<[v := fill tag c]> grp).
Proof.
  intros Hord Hbefore j k ej ek Hlt Hj Hk Hvalid.
  apply list_lookup_insert_Some in Hj as [(<- & <- & _)|[Hnj Hj]]; [reflexivity|].
  apply list_lookup_insert_Some in Hk as [(<- & <- & _)|[Hnk Hk]].
  - exact (Hbefore j ej Hlt Hj).
  - exact (Hord j k ej ek Hlt Hj Hk Hvalid).
Qed.

(** X5. In every reachable state the valid lines of each set come first: a
    line is valid only if all the lines before it in its set are. The sets
    are filled in index order and stay without gaps. *)
Theorem sets_are_filled_in_index_order g :
  reachable g →
  ∀ n grp, cache_memory g !! n = Some grp → filled_in_order grp.
Proof.
  induction 1 as [s E b g Hconf|g a g' Hreach IH Hacc]; intros n row Hrow.
  - apply configure_Some in Hconf as (_ & _ & ->). simpl in Hrow.
    apply lookup_replicate_1 in Hrow as [-> _].
    intros i j ei ej _ _ Hj Hvalid.
    apply lookup_replicate_1 in Hj as [-> _]. discriminate.
  - pose proof (reachable_wf g Hreach) as Hwf.
    destruct (access_data_wf_inv g a g' Hwf Hacc) as (grp & Hgrp & Hcases).
    destruct Hcases as [(i & e & He & _ & _ & ->)
                       |(m & v & victim & _ & _ & Hleast & Hv & _ & ->)];
      simpl in Hrow;
      apply list_lookup_insert_Some in Hrow as [(_ & <- & _)|[_ Hrow]];
      try exact (IH n row Hrow).
    + apply filled_in_order_touch; [exact (IH _ grp Hgrp)|exact He].
    + apply filled_in_order_fill; [exact (IH _ grp Hgrp)|].
      exact (least_recent_after_valid g a grp v Hwf Hgrp Hleast).
Qed.

Lemma sets_are_filled_in_index_order_witness :
  filled_in_order [fill 0 3; fill 1 2].
Proof.
  apply (sets_are_filled_in_index_order two_way_cache_warm
           two_way_cache_warm_reachable 0%nat).
  reflexivity.
Defined.

(** ** Distinct stamps *)

Lemma reachable_stamps_distinct g : reachable g → stamps_distinct g.
Proof.
  induction 1 as [s E b g Hconf|g a g' Hreach IH Hacc].
  - apply configure_Some in Hconf as (_ & _ & ->).
    intros n k n' k' e e' Hline _ Hvalid. unfold line_at in Hline. simpl in Hline.
    apply bind_Some in Hline as (grp & Hgrp & He).
    apply lookup_replicate_1 in Hgrp as [-> _].
    apply lookup_replicate_1 in He as [-> _]. discriminate.
  - pose proof (reachable_wf g Hreach) as Hwf.
    assert (∀ n k e, line_at g n k = Some e → is_valid e = true →
                     lru_counter e < global_lru_counter g) as Hold.
    { intros n k e Hline Hvalid. pose proof (wf_line_at_ok g n k e Hwf Hline) as Hok.
      unfold line_ok in Hok. rewrite Hvalid in Hok. lia. }
    destruct (access_data_wf_inv g a g' Hwf Hacc) as (grp & Hgrp & Hcases).
    destruct Hcases as [(i & e0 & He0 & _ & _ & ->)
                       |(m & v & victim & _ & _ & _ & Hv & _ & ->)];
      intros n k n' k' e e' Hline Hline' Hvalid Hvalid' Hstamp.
    + rewrite (line_at_hit_result g a grp i e0 _ _ Hgrp He0) in Hline.
      rewrite (line_at_hit_result g a grp i e0 _ _ Hgrp He0) in Hline'.
      destruct (decide (n = _ ∧ k = i)) as [[-> ->]|_];
        destruct (decide (n' = _ ∧ k' = i)) as [[-> ->]|_]; [auto|..].
      * injection Hline as <-. simpl in Hstamp.
        pose proof (Hold n' k' e' Hline' Hvalid'). lia.
      * injection Hline' as <-. simpl in Hstamp.
        pose proof (Hold n k e Hline Hvalid). lia.
      * exact (IH n k n' k' e e' Hline Hline' Hvalid Hvalid' Hstamp).
    + rewrite (line_at_miss_result g a grp v victim _ _ Hgrp Hv) in Hline.
      rewrite (line_at_miss_result g a grp v victim _ _ Hgrp Hv) in Hline'.
      destruct (decide (n = _ ∧ k = v)) as [[-> ->]|_];
        destruct (decide (n' = _ ∧ k' = v)) as [[-> ->]|_]; [auto|..].
      * injection Hline as <-. simpl in Hstamp.
        pose proof (Hold n' k' e' Hline' Hvalid'). lia.
      * injection Hline' as <-. simpl in Hstamp.
        pose proof (Hold n k e Hline Hvalid). lia.
      * exact (IH n k n' k' e e' Hline Hline' Hvalid Hvalid' Hstamp).
Qed.

(** X6. In every reachable state no two valid lines, of the same set or of
    different sets, carry the same [lru_counter]: the counter of a valid line
    identifies the access that stamped it. *)
Theorem valid_lines_have_distinct_stamps g :
  reachable g →
  ∀ n k n' k' e e',
    line_at g n k = Some e → line_at g n' k' = Some e' →
    is_valid e = true → is_valid e' = true →
    lru_counter e = lru_counter e' → n = n' ∧ k = k'.
Proof. exact (reachable_stamps_distinct g). Qed.

Lemma valid_lines_have_distinct_stamps_witness :
  lru_counter (fill 0 3) ≠ lru_counter (fill 1 2).
Proof.
  intros Hsame.
  destruct (valid_lines_have_distinct_stamps two_way_cache_warm
              two_way_cache_warm_reachable 0%nat 0%nat 0%nat 1%nat
              (fill 0 3) (fill 1 2)) as [_ Hk];
    [reflexivity | reflexivity | reflexivity | reflexivity | exact Hsame |].
  discriminate Hk.
Defined.

(** X7. A miss evicts exactly when the target set is full. In that case the
    line it replaces has an [lru_counter] strictly below that of every other
    line of the set; otherwise it replaces the first invalid line. *)
Theorem miss_evicts_iff_set_full g a g' :
  reachable g →
  access_data g a = Some g' →
  total_misses g' = total_misses g + 1 →
  ∃ grp v victim,
    target_set g a = Some grp ∧ grp !! v = Some victim ∧
    line_at g' (Z.to_nat (set_index_of g a)) v
      = Some (fill (tag_of g a) (global_lru_counter g)) ∧
    (total_evictions g' = total_evictions g + 1 ↔ full grp) ∧
    (full grp →
     ∀ k e, k ≠ v → grp !! k = Some e → lru_counter victim < lru_counter e) ∧
    (¬ full grp →
     total_evictions g' = total_evictions g ∧ is_valid victim = false ∧
     ∀ k e, (k < v)%nat → grp !! k = Some e → is_valid e = true).
Proof.
  intros Hreach Hacc Hmiss.
  pose proof (reachable_wf g Hreach) as Hwf.
  destruct (access_data_wf_inv g a g' Hwf Hacc) as (grp & Hgrp & Hcases).
  destruct Hcases as [(i & e & _ & _ & _ & ->)
                     |(m & v & victim & _ & _ & Hleast & Hv & _ & ->)].
  { simpl in Hmiss. lia. }
  exists grp, v, victim. split; [assumption|]. split; [assumption|].
  split.
  { rewrite (line_at_miss_result g a grp v victim _ _ Hgrp Hv).
    rewrite decide_True by auto. reflexivity. }
  assert (is_valid victim = true ↔ full grp) as Hfull.
  { split.
    - exact (least_recent_valid_full g a grp v victim Hwf Hgrp Hleast Hv).
    - intros Hall. exact (Hall v victim Hv). }
  split; [|split].
  - rewrite <- Hfull. simpl. destruct (is_valid victim); split;
      intros; try reflexivity; try discriminate; lia.
  - intros Hall k e Hne Hk.
    destruct Hleast as (victim' & Hv' & Hmin & _).
    assert (victim' = victim) as -> by congruence.
    pose proof (Hmin k e Hk) as Hle.
    destruct (Z.eq_dec (lru_counter victim) (lru_counter e)) as [Heq|]; [|lia].
    exfalso. apply Hne.
    pose proof (reachable_stamps_distinct g Hreach
                  (Z.to_nat (set_index_of g a)) v (Z.to_nat (set_index_of g a)) k
                  victim e) as Hdist.
    rewrite !(line_at_target g a grp _ Hgrp) in Hdist.
    destruct (Hdist Hv Hk (Hall v victim Hv) (Hall k e Hk) Heq) as [_ ->].
    reflexivity.
  - intros Hnot. assert (is_valid victim = false) as Hinv.
    { destruct (is_valid victim); [|reflexivity]. exfalso. apply Hnot.
      by apply Hfull. }
    simpl. rewrite Hinv. split; [reflexivity|]. split; [reflexivity|].
    exact (least_recent_after_valid g a grp v Hwf Hgrp Hleast).
Qed.

Lemma miss_evicts_iff_set_full_witness :
  ∃ grp v victim,
    target_set two_way_cache_warm 8 = Some grp ∧ grp !! v = Some victim ∧
    (total_evictions two_way_cache_evicted = total_evictions two_way_cache_warm + 1
     ↔ full grp).
Proof.
  destruct (miss_evicts_iff_set_full two_way_cache_warm 8 two_way_cache_evicted)
    as (grp & v & victim & Hgrp & Hv & _ & Hiff & _);
    [exact two_way_cache_warm_reachable | vm_compute; reflexivity | reflexivity |].
  exists grp, v, victim. repeat split; try assumption; apply Hiff.
Defined.

(** ** Addresses *)

(** X8. The offset bits of an address play no part: two addresses with the
    same block number ([address >> block_offset_bits]) give the same result,
    defined or not, in any state whose [set_index_bits] is not negative. *)
Theorem access_depends_on_block_only g a a' :
  0 ≤ set_index_bits g →
  Z.shiftr a (block_offset_bits g) = Z.shiftr a' (block_offset_bits g) →
  access_data g a = access_data g a'.
Proof.
  intros Hs Hblock. unfold access_data.
  assert (∀ n, ull_shr a n = Some (Z.shiftr a n) ∧ ull_shr a' n = Some (Z.shiftr a' n)
               ∨ ull_shr a n = None ∧ ull_shr a' n = None) as Hshr.
  { intros n. unfold ull_shr. case_bool_decide; auto. }
  destruct (Hshr (block_offset_bits g)) as [[-> ->]|[-> ->]]; [|reflexivity].
  simpl. rewrite <- Hblock.
  destruct (int_add (set_index_bits g) (block_offset_bits g)) as [tag_shift|] eqn:Hadd;
    [|reflexivity].
  apply int_add_Some in Hadd as [-> _]. simpl.
  destruct (Hshr (set_index_bits g + block_offset_bits g)) as [[-> ->]|[-> ->]];
    [|reflexivity].
  assert (Z.shiftr a (set_index_bits g + block_offset_bits g)
          = Z.shiftr a' (set_index_bits g + block_offset_bits g)) as ->; [|reflexivity].
  rewrite (Z.add_comm (set_index_bits g)).
  rewrite <- !Z.shiftr_shiftr by assumption. by rewrite Hblock.
Qed.

Lemma access_depends_on_block_only_witness :
  access_data two_way_cache_warm 4 = access_data two_way_cache_warm 5.
Proof.
  apply access_depends_on_block_only; [vm_compute; discriminate | reflexivity].
Defined.

(** X9. In a reachable state the block number of an address is its tag
    followed by its set index: [block = tag * number_of_sets + set index],
    with the set index below [number_of_sets]. Two addresses with the same
    tag and set index are therefore in the same block. *)
Theorem block_is_tag_and_set_index g a :
  reachable g →
  0 ≤ set_index_of g a < number_of_sets g ∧
  block_of g a = tag_of g a * number_of_sets g + set_index_of g a ∧
  ∀ a', tag_of g a' = tag_of g a → set_index_of g a' = set_index_of g a →
        block_of g a' = block_of g a.
Proof.
  intros Hreach. pose proof (reachable_wf g Hreach) as Hwf.
  pose proof (wf_s g Hwf) as Hs. pose proof (wf_b g Hwf) as Hb.
  assert (∀ x, block_of g x = tag_of g x * number_of_sets g + set_index_of g x) as Hsplit.
  { intros x. rewrite (set_index_of_mod g x Hwf), (wf_sets g Hwf).
    unfold block_of, tag_of. rewrite (Z.add_comm (set_index_bits g)).
    rewrite <- Z.shiftr_shiftr by lia.
    rewrite (Z.shiftr_div_pow2 (Z.shiftr x (block_offset_bits g))) by lia.
    assert (0 < 2 ^ set_index_bits g) by (apply Z.pow_pos_nonneg; lia).
    rewrite (Z.div_mod (Z.shiftr x (block_offset_bits g)) (2 ^ set_index_bits g)) at 1 by lia.
    lia. }
  split; [exact (set_index_of_range g a Hwf)|]. split; [apply Hsplit|].
  intros a' Htag Hset. rewrite (Hsplit a'), (Hsplit a), Htag, Hset. reflexivity.
Qed.

Lemma block_is_tag_and_set_index_witness :
  block_of two_way_cache_warm 13 = 3 * 2 + 0.
Proof.
  destruct (block_is_tag_and_set_index two_way_cache_warm 13
              two_way_cache_warm_reachable) as (_ & Hsplit & _).
  exact Hsplit.
Defined.

(** ** A fresh cache *)

(** X10. On a freshly initialised cache with at least one line per set, the
    access to any address is a miss without eviction that fills line 0 of the
    target set with the tag and the stamp 1. *)
Theorem first_access_is_cold_miss s E b g a :
  configure s E b = Some g → 0 < E →
  ∃ g', access_data g a = Some g' ∧
    total_hits g' = 0 ∧ total_misses g' = 1 ∧ total_evictions g' = 0 ∧
    global_lru_counter g' = 2 ∧
    line_at g' (Z.to_nat (set_index_of g a)) 0 = Some (fill (tag_of g a) 1) ∧
    ∀ n k, ¬ (n = Z.to_nat (set_index_of g a) ∧ k = 0%nat) →
           line_at g' n k = line_at g n k.
Proof.
  intros Hconf HE.
  pose proof (reachable_init s E b g Hconf) as Hreach.
  pose proof (reachable_wf g Hreach) as Hwf.
  apply configure_Some in Hconf as (Hs & Hb & ->).
  set (g := fresh_cache s E b) in *.
  destruct (wf_target_set g a Hwf) as [grp Hgrp].
  assert (grp = replicate (Z.to_nat E) empty_line) as Hrow.
  { unfold target_set in Hgrp. simpl in Hgrp.
    by apply lookup_replicate_1 in Hgrp as [-> _]. }
  assert (absent (tag_of g a) grp) as Habs.
  { intros k e Hk [Hvalid _]. rewrite Hrow in Hk.
    apply lookup_replicate_1 in Hk as [-> _]. discriminate. }
  destruct (access_data_absent g a grp Hwf HE Hgrp Habs)
    as (m & v & victim & Hlru & Hv & Hacc); [vm_compute; reflexivity|].
  assert (victim = empty_line) as ->.
  { rewrite Hrow in Hv. by apply lookup_replicate_1 in Hv as [-> _]. }
  assert (v = 0%nat) as ->.
  { destruct v as [|v]; [reflexivity|exfalso].
    assert (least_recent grp (S v)) as (e & He & _ & Hfirst).
    { destruct (access_data_wf_inv g a _ Hwf Hacc) as (grp' & Hgrp' & Hcases).
      assert (grp' = grp) as -> by congruence.
      destruct Hcases as [(i & e & He & [Hvalid _] & _)
                         |(m' & v' & victim' & _ & Hlru' & Hleast & _)].
      - rewrite Hrow in He. apply lookup_replicate_1 in He as [-> _]. discriminate.
      - rewrite Hlru in Hlru'. injection Hlru' as <- <-. exact Hleast. }
    assert (is_Some (grp !! 0%nat)) as [e0 He0].
    { apply lookup_lt_is_Some. apply lookup_lt_Some in Hv. lia. }
    pose proof (Hfirst 0%nat e0 ltac:(lia) He0) as Hlt.
    rewrite Hrow in He, He0.
    apply lookup_replicate_1 in He as [-> _].
    apply lookup_replicate_1 in He0 as [-> _]. simpl in Hlt. lia. }
  exists (miss_result g a grp 0 empty_line). split; [exact Hacc|].
  do 4 (split; [reflexivity|]). split.
  - rewrite (line_at_miss_result g a grp 0 empty_line _ _ Hgrp Hv).
    rewrite decide_True by auto. reflexivity.
  - intros n k Hother.
    rewrite (line_at_miss_result g a grp 0 empty_line _ _ Hgrp Hv).
    rewrite decide_False by assumption. reflexivity.
Qed.

Lemma first_access_is_cold_miss_witness :
  ∃ g', access_data (fresh_cache 1 2 1) 6 = Some g' ∧
        total_hits g' = 0 ∧ total_misses g' = 1 ∧ total_evictions g' = 0.
Proof.
  destruct (first_access_is_cold_miss 1 2 1 (fresh_cache 1 2 1) 6)
    as (g' & Hacc & Hh & Hm & He & _); [vm_compute; reflexivity | lia |].
  exists g'. repeat split; assumption.
Defined.

(** ** Retention of recently used blocks *)

Lemma same_geometry_refl g : same_geometry g g.
Proof. repeat split. Qed.

Lemma same_geometry_trans g h k :
  same_geometry g h → same_geometry h k → same_geometry g k.
Proof. unfold same_geometry. intuition congruence. Qed.

Lemma same_geometry_decode g h x :
  same_geometry g h →
  set_index_of h x = set_index_of g x ∧ tag_of h x = tag_of g x.
Proof.
  intros (Hs & Hb & _ & _ & _ & Hm). unfold set_index_of, tag_of.
  rewrite Hs, Hb, Hm. split; reflexivity.
Qed.

(** What a defined access does to its target set: one line [j] receives a
    valid line with the tag and the current clock; either line [j] held the
    tag already, or no line did and [j] is the first least recent line. *)
Lemma access_data_summary g a g' :
  wf g → access_data g a = Some g' →
  ∃ grp j new,
    target_set g a = Some grp ∧ (j < length grp)%nat ∧
    cache_memory g'
      = <[Z.to_nat (set_index_of g a) := <[j := new]> grp]> (cache_memory g) ∧
    holds_tag (tag_of g a) new ∧
    lru_counter new = global_lru_counter g ∧
    global_lru_counter g' = global_lru_counter g + 1 ∧
    same_geometry g g' ∧
    ((∃ e, grp !! j = Some e ∧ holds_tag (tag_of g a) e)
     ∨ (absent (tag_of g a) grp ∧ least_recent grp j)).
Proof.
  intros Hwf Hacc.
  destruct (access_data_wf_inv g a g' Hwf Hacc) as (grp & Hgrp & Hcases).
  pose proof (wf_ull_incr g Hwf) as Hclock.
  destruct Hcases as [(i & e & He & Hholds & _ & ->)
                     |(m & v & victim & Habs & _ & Hleast & Hv & _ & ->)].
  - exists grp, i, (touch e (global_lru_counter g)).
    split; [assumption|]. split; [by apply lookup_lt_Some in He|].
    split; [reflexivity|]. split; [exact Hholds|]. split; [reflexivity|].
    split; [exact Hclock|]. split; [repeat split|]. left. eauto.
  - exists grp, v, (fill (tag_of g a) (global_lru_counter g)).
    split; [assumption|]. split; [by apply lookup_lt_Some in Hv|].
    split; [reflexivity|]. split; [split; reflexivity|]. split; [reflexivity|].
    split; [exact Hclock|]. split; [repeat split|]. right. auto.
Qed.

(** A full set of distinct tags, all among [ta :: D], that lacks a tag [t]
    of [D] has at most as many lines as [D] has elements. *)
Lemma full_set_tags_bound (grp : list cache_entry) (t ta : Z) (D : list Z) :
  tags_unique grp → full grp → absent t grp → t ∈ D →
  (∀ k e, grp !! k = Some e → tag_value e = ta ∨ tag_value e ∈ D) →
  (length grp ≤ length D)%nat.
Proof.
  intros Huniq Hfull Habs Ht Htags.
  assert (NoDup (t :: (tag_value <$> grp))) as Hnodup.
  { apply NoDup_cons. split.
    - intros Hin. apply list_elem_of_fmap in Hin as (e & -> & He).
      apply list_elem_of_lookup in He as [k Hk].
      apply (Habs k e Hk). split; [exact (Hfull k e Hk)|reflexivity].
    - apply NoDup_alt. intros i j x Hi Hj.
      apply list_lookup_fmap_Some in Hi as (ei & -> & Hi).
      apply list_lookup_fmap_Some in Hj as (ej & Htag & Hj).
      exact (Huniq i j ei ej Hi Hj (Hfull i ei Hi) (Hfull j ej Hj) Htag). }
  assert (t :: (tag_value <$> grp) ⊆+ ta :: D) as Hsub.
  { apply NoDup_submseteq; [exact Hnodup|].
    intros x Hx. apply elem_of_cons in Hx as [->|Hx].
    - apply elem_of_cons. auto.
    - apply list_elem_of_fmap in Hx as (e & -> & He).
      apply list_elem_of_lookup in He as [k Hk].
      apply elem_of_cons. exact (Htags k e Hk). }
  apply submseteq_length in Hsub. simpl in Hsub.
  rewrite length_fmap in Hsub. lia.
Qed.

Lemma retains_after_access g a g1 D :
  wf g → access_data g a = Some g1 →
  retains g a (global_lru_counter g) D g1.
Proof.
  intros Hwf Hacc.
  destruct (access_data_summary g a g1 Hwf Hacc)
    as (grp & j & new & Hgrp & Hj & Hmem & Hholds & Hstamp & Hclock & Hgeo & _).
  destruct (same_geometry_decode g g1 a Hgeo) as [Hidx _].
  split; [exact Hgeo|]. split; [lia|].
  exists (<[j := new]> grp). split.
  { unfold target_set. rewrite Hidx, Hmem. apply list_lookup_insert_eq.
    exact (lookup_lt_Some _ _ _ Hgrp). }
  split.
  - exists j, new. split; [by apply list_lookup_insert_eq|].
    split; [exact Hholds|lia].
  - intros k e Hk Hvalid Hrecent.
    apply list_lookup_insert_Some in Hk as [(_ & <- & _)|[_ Hk]].
    + left. apply Hholds.
    + pose proof (wf_line_range g a grp k e Hwf Hgrp Hk) as Hok.
      unfold line_ok in Hok. rewrite Hvalid in Hok. lia.
Qed.

Lemma retains_step g a t0 D h a' h' :
  wf h → retains g a t0 D h →
  access_data h a' = Some h' →
  (set_index_of g a' = set_index_of g a → tag_of g a' ≠ tag_of g a →
   tag_of g a' ∈ D) →
  Z.of_nat (length D) < associativity g →
  retains g a t0 D h'.
Proof.
  intros Hwf (Hgeo & Ht0 & grp & Hgrp & (i & e & Hi & Hholds & Hrecent) & Htags)
         Hacc HD Hsize.
  destruct (access_data_summary h a' h' Hwf Hacc)
    as (grp' & j & new & Hgrp' & Hj & Hmem & Hnew & Hstamp & Hclock & Hgeo' & Hkind).
  pose proof (same_geometry_trans g h h' Hgeo Hgeo') as Hgeo2.
  destruct (same_geometry_decode g h a Hgeo) as [Hidx Htag].
  destruct (same_geometry_decode g h a' Hgeo) as [Hidx' Htag'].
  destruct (same_geometry_decode g h' a Hgeo2) as [Hidx2 _].
  pose proof (set_index_of_range h a Hwf) as Hra.
  pose proof (set_index_of_range h a' Hwf) as Hra'.
  split; [exact Hgeo2|]. split; [lia|].
  destruct (Z.eq_dec (set_index_of h a') (set_index_of h a)) as [Hsame|Hother].
  - (* the access goes to the set of [a] *)
    assert (grp' = grp) as ->.
    { unfold target_set in Hgrp, Hgrp'. rewrite Hsame in Hgrp'. congruence. }
    assert (tag_of g a' ≠ tag_of g a → tag_of g a' ∈ D) as HD'.
    { apply HD. congruence. }
    exists (<[j := new]> grp). split.
    { unfold target_set. rewrite Hidx2, <- Hidx, <- Hsame, Hmem.
      apply list_lookup_insert_eq. exact (lookup_lt_Some _ _ _ Hgrp'). }
    split.
    + destruct (decide (j = i)) as [->|Hne].
      * exists i, new. split; [by apply list_lookup_insert_eq|].
        split; [|lia].
        destruct Hkind as [(e' & He' & [_ Hte'])|[Habs Hleast]].
        -- assert (e' = e) as -> by congruence.
           destruct Hnew as [Hvalid Htn]. destruct Hholds as [_ Hte].
           split; [exact Hvalid|]. congruence.
        -- exfalso.
           destruct Hholds as [Hve Hte].
           pose proof (least_recent_valid_full h a' grp i e Hwf Hgrp' Hleast Hi Hve)
             as Hfull.
           assert (tag_of g a' ≠ tag_of g a) as Hdiff.
           { intros Heq. apply (Habs i e Hi). split; [exact Hve|]. congruence. }
           assert (length grp ≤ length D)%nat as Hbound.
           { apply (full_set_tags_bound grp (tag_of h a') (tag_of g a) D).
             - exact (Forall_lookup_1 _ _ _ _ (wf_tags h Hwf) Hgrp').
             - exact Hfull.
             - exact Habs.
             - rewrite Htag'. exact (HD' Hdiff).
             - intros k ek Hk. apply (Htags k ek Hk (Hfull k ek Hk)).
               destruct Hleast as (v' & Hv' & Hmin & _).
               assert (v' = e) as -> by congruence.
               pose proof (Hmin k ek Hk). lia. }
           pose proof (wf_group_length h a' grp Hwf Hgrp') as Hlen.
           destruct Hgeo as (_ & _ & HE & _). lia.
      * exists i, e. split; [by rewrite list_lookup_insert_ne|].
        split; [exact Hholds|exact Hrecent].
    + intros k ek Hk Hvalid Hrec.
      apply list_lookup_insert_Some in Hk as [(_ & <- & _)|[_ Hk]].
      * destruct Hnew as [_ Htn]. rewrite Htn, Htag'.
        destruct (Z.eq_dec (tag_of g a') (tag_of g a)); auto.
      * exact (Htags k ek Hk Hvalid Hrec).
  - (* the access goes to another set *)
    exists grp. split.
    { unfold target_set. rewrite Hidx2, <- Hidx, Hmem.
      rewrite list_lookup_insert_ne by lia. exact Hgrp. }
    split; [|exact Htags]. exists i, e. auto.
Qed.

Lemma run_wf addresses : ∀ g g', wf g → run g addresses = Some g' → wf g'.
Proof.
  induction addresses as [|a rest IH]; intros g g' Hwf; simpl.
  - intros [= <-]. exact Hwf.
  - intros Hrun. apply bind_Some in Hrun as (g1 & Hacc & Hrest).
    exact (IH g1 g' (access_data_wf g a g1 Hwf Hacc) Hrest).
Qed.

Lemma retains_run g a t0 D addresses : ∀ h h',
  wf h → retains g a t0 D h →
  run h addresses = Some h' →
  (∀ a', a' ∈ addresses →
         set_index_of g a' = set_index_of g a → tag_of g a' ≠ tag_of g a →
         tag_of g a' ∈ D) →
  Z.of_nat (length D) < associativity g →
  retains g a t0 D h'.
Proof.
  induction addresses as [|a' rest IH]; intros h h' Hwf Hret; simpl.
  - intros [= <-] _ _. exact Hret.
  - intros Hrun HD Hsize. apply bind_Some in Hrun as (h1 & Hacc & Hrest).
    apply (IH h1 h'); try assumption.
    + exact (access_data_wf h a' h1 Hwf Hacc).
    + apply (retains_step g a t0 D h a' h1); try assumption.
      apply HD. apply elem_of_cons. auto.
    + intros a'' Hin. apply HD. apply elem_of_cons. auto.
Qed.

(** X11. A block stays in the cache as long as fewer than [associativity]
    distinct other blocks of its set are accessed after it. Precisely: after
    an access to [a], let any sequence of accesses follow; when the tags of
    the later accesses that go to the set of [a] with another tag all belong
    to a list [D] shorter than [associativity], the set of [a] still has a
    valid line with the tag of [a] at the end, so the next access to [a] is
    a hit. *)
Theorem recently_used_block_is_retained g a g1 addresses g2 (D : list Z) :
  reachable g →
  access_data g a = Some g1 →
  run g1 addresses = Some g2 →
  (∀ a', a' ∈ addresses →
         set_index_of g a' = set_index_of g a → tag_of g a' ≠ tag_of g a →
         tag_of g a' ∈ D) →
  Z.of_nat (length D) < associativity g →
  cached g2 a ∧
  (total_hits g2 < INT_MAX →
   ∃ g3, access_data g2 a = Some g3 ∧
         total_hits g3 = total_hits g2 + 1 ∧
         total_misses g3 = total_misses g2 ∧
         total_evictions g3 = total_evictions g2).
Proof.
  intros Hreach Hacc Hrun HD Hsize.
  pose proof (reachable_wf g Hreach) as Hwf.
  pose proof (access_data_wf g a g1 Hwf Hacc) as Hwf1.
  pose proof (run_wf addresses g1 g2 Hwf1 Hrun) as Hwf2.
  pose proof (retains_after_access g a g1 D Hwf Hacc) as Hret1.
  destruct (retains_run g a _ D addresses g1 g2 Hwf1 Hret1 Hrun HD Hsize)
    as (Hgeo & _ & grp & Hgrp & (i & e & Hi & Hholds & _) & _).
  destruct (same_geometry_decode g g2 a Hgeo) as [_ Htag].
  rewrite <- Htag in Hholds.
  split; [exists grp, i, e; auto|].
  intros Hroom. exists (hit_result g2 a grp i e).
  split; [by apply access_data_present|]. repeat split.
Qed.

Lemma recently_used_block_is_retained_witness :
  ∃ g2, run two_way_cache_evicted [0; 2; 1] = Some g2 ∧ cached g2 8.
Proof.
  eexists. split; [vm_compute; reflexivity|].
  eapply (recently_used_block_is_retained two_way_cache_warm 8 two_way_cache_evicted
            [0; 2; 1] _ [0]).
  - exact two_way_cache_warm_reachable.
  - vm_compute. reflexivity.
  - vm_compute. reflexivity.
  - intros a' Hin Hset Htag.
    apply elem_of_cons in Hin as [->|Hin]; [apply elem_of_cons; left; reflexivity|].
    apply elem_of_cons in Hin as [->|Hin]; [vm_compute in Hset; discriminate|].
    apply elem_of_cons in Hin as [->|Hin]; [apply elem_of_cons; left; reflexivity|].
    apply elem_of_nil in Hin. destruct Hin.
  - vm_compute. reflexivity.
Defined.

(** ** Sequences of accesses *)

Lemma run_app addresses more g :
  run g (addresses ++ more) = (h ← run g addresses; run h more).
Proof.
  revert g. induction addresses as [|a rest IH]; intros g; simpl; [reflexivity|].
  destruct (access_data g a) as [g1|]; simpl; [apply IH|reflexivity].
Qed.

Lemma run_counts addresses : ∀ g g',
  run g addresses = Some g' →
  total_hits g' + total_misses g'
  = total_hits g + total_misses g + Z.of_nat (length addresses).
Proof.
  induction addresses as [|a rest IH]; intros g g'; simpl.
  - intros [= <-]. lia.
  - intros Hrun. apply bind_Some in Hrun as (g1 & Hacc & Hrest).
    rewrite (IH g1 g' Hrest).
    destruct (access_data_counts g a g1 Hacc) as [(-> & -> & _)|(-> & -> & _)]; lia.
Qed.

Lemma run_same_geometry addresses : ∀ g g',
  wf g → run g addresses = Some g' → same_geometry g g'.
Proof.
  induction addresses as [|a rest IH]; intros g g' Hwf; simpl.
  - intros [= <-]. apply same_geometry_refl.
  - intros Hrun. apply bind_Some in Hrun as (g1 & Hacc & Hrest).
    destruct (access_data_summary g a g1 Hwf Hacc)
      as (_ & _ & _ & _ & _ & _ & _ & _ & _ & Hgeo & _).
    apply (same_geometry_trans g g1 g' Hgeo).
    exact (IH g1 g' (access_data_wf g a g1 Hwf Hacc) Hrest).
Qed.

Lemma run_reachable addresses : ∀ g g',
  reachable g → run g addresses = Some g' → reachable g'.
Proof.
  induction addresses as [|a rest IH]; intros g g' Hreach; simpl.
  - intros [= <-]. exact Hreach.
  - intros Hrun. apply bind_Some in Hrun as (g1 & Hacc & Hrest).
    exact (IH g1 g' (reachable_access g a g1 Hreach Hacc) Hrest).
Qed.

(** X12. After a sequence of accesses from a freshly initialised cache, the
    [lru_counter] of a valid line is the position, counted from 1, of the
    last access of the sequence to the block that the line holds: that
    access went to the set of the line with the tag of the line, and no
    later access did. *)
Theorem stamp_is_position_of_last_access s E b g0 addresses :
  configure s E b = Some g0 →
  ∀ g, run g0 addresses = Some g →
  ∀ n k e, line_at g n k = Some e → is_valid e = true →
  ∃ j a, addresses !! j = Some a ∧
         lru_counter e = 1 + Z.of_nat j ∧
         Z.to_nat (set_index_of g0 a) = n ∧ tag_of g0 a = tag_value e ∧
         ∀ j' a', (j < j')%nat → addresses !! j' = Some a' →
                  ¬ (Z.to_nat (set_index_of g0 a') = n ∧ tag_of g0 a' = tag_value e).
Proof.
  intros Hconf. pose proof (configure_wf s E b g0 Hconf) as Hwf0.
  assert (total_hits g0 + total_misses g0 = 0) as Hzero.
  { apply configure_Some in Hconf as (_ & _ & ->). reflexivity. }
  induction addresses as [|a addresses IH] using rev_ind; intros g Hrun n k e Hline Hvalid.
  - exfalso. simpl in Hrun. injection Hrun as <-.
    apply configure_Some in Hconf as (_ & _ & ->).
    unfold line_at in Hline. simpl in Hline.
    apply bind_Some in Hline as (grp & Hgrp & He).
    apply lookup_replicate_1 in Hgrp as [-> _].
    apply lookup_replicate_1 in He as [-> _]. discriminate.
  - rewrite run_app in Hrun. apply bind_Some in Hrun as (h & Hh & Hacc).
    simpl in Hacc. apply bind_Some in Hacc as (g' & Hacc & [= ->]).
    pose proof (run_wf addresses g0 h Hwf0 Hh) as Hwf.
    pose proof (run_same_geometry addresses g0 h Hwf0 Hh) as Hgeo.
    destruct (same_geometry_decode g0 h a Hgeo) as [Hidx Htag].
    assert (global_lru_counter h = 1 + Z.of_nat (length addresses)) as Hnow.
    { rewrite (wf_clock h Hwf). pose proof (run_counts addresses g0 h Hh). lia. }
    destruct (access_data_summary h a g Hwf Hacc)
      as (grp & j & new & Hgrp & Hj & Hmem & Hnew & Hstamp & _ & _ & Hkind).
    rewrite (line_at_insert h g _ grp j new n k Hgrp Hj Hmem) in Hline.
    destruct (decide (n = Z.to_nat (set_index_of h a) ∧ k = j)) as [[-> ->]|Hother].
    + injection Hline as <-. exists (length addresses), a.
      split; [by rewrite lookup_app_r, Nat.sub_diag by lia|].
      split; [lia|]. split; [by rewrite Hidx|].
      split; [rewrite <- Htag; symmetry; apply Hnew|].
      intros j' a' Hlt Hj'. apply lookup_lt_Some in Hj'.
      rewrite length_app in Hj'. simpl in Hj'. lia.
    + destruct (IH h Hh n k e Hline Hvalid)
        as (i & ai & Hi & Hsi & Hni & Hti & Hlast).
      pose proof (lookup_lt_Some _ _ _ Hi) as Hlt.
      exists i, ai. split; [by rewrite lookup_app_l|].
      do 3 (split; [assumption|]).
      intros j' a' Hlt' Hj'.
      destruct (decide (j' < length addresses)%nat) as [Hin|Hout].
      { rewrite lookup_app_l in Hj' by assumption. exact (Hlast j' a' Hlt' Hj'). }
      assert (a' = a) as ->.
      { rewrite lookup_app_r in Hj' by lia.
        destruct (j' - length addresses)%nat as [|d]; simpl in Hj'; [congruence|].
        by destruct d. }
      intros [Hset Hsame]. rewrite <- Hidx in Hset. rewrite <- Htag in Hsame.
      rewrite <- Hset in Hline, Hother.
      rewrite (line_at_target h a grp k Hgrp) in Hline.
      destruct Hkind as [(e' & He' & [Hv' Ht'])|[Habs _]].
      * apply Hother. split; [reflexivity|].
        apply (Forall_lookup_1 _ _ _ _ (wf_tags h Hwf) Hgrp k j e e'); congruence.
      * apply (Habs k e Hline). split; [assumption|congruence].
Qed.

Lemma stamp_is_position_of_last_access_witness :
  ∃ j a, [0; 4; 0] !! j = Some a ∧ lru_counter (fill 1 2) = 1 + Z.of_nat j ∧
         tag_of (fresh_cache 1 2 1) a = 1.
Proof.
  destruct (stamp_is_position_of_last_access 1 2 1 (fresh_cache 1 2 1) [0; 4; 0])
    with (g := two_way_cache_warm) (n := 0%nat) (k := 1%nat) (e := fill 1 2)
    as (j & a & Hj & Hstamp & _ & Htag & _);
    [vm_compute; reflexivity | vm_compute; reflexivity | reflexivity | reflexivity |].
  exists j, a. repeat split; assumption.
Defined.

(** ** Traces *)

Lemma replay_record_run g r : replay_record g r = run g (addresses_of r).
Proof.
  unfold replay_record, addresses_of.
  destruct (command r) as [[] [] [] [] [] [] [] []]; simpl; try reflexivity;
    destruct (access_data g (address r)) as [g1|]; simpl; try reflexivity;
    destruct (access_data g1 (address r)); reflexivity.
Qed.

Lemma replay_trace_run records g :
  replay_trace g records = run g (accessed_addresses records).
Proof.
  revert g. induction records as [|r rest IH]; intros g; simpl; [reflexivity|].
  unfold accessed_addresses in *. simpl. rewrite run_app, replay_record_run.
  destruct (run g (addresses_of r)) as [g1|]; simpl; [apply IH|reflexivity].
Qed.

(** X13. A replay is the sequence of accesses to the addresses of its L, S
    and M records, those of an M record taken twice: the result depends
    neither on the sizes, nor on whether a record is a load or a store, nor
    on the records with any other command. *)
Theorem replay_is_run_of_accessed_addresses records g :
  replay_trace g records = run g (accessed_addresses records).
Proof. apply replay_trace_run. Qed.

(** X14. Replaying a trace followed by another is replaying the first and
    then the second from the state reached; when the first part is
    undefined, so is the whole. *)
Theorem replay_trace_app records more g :
  replay_trace g (records ++ more)
  = (h ← replay_trace g records; replay_trace h more).
Proof.
  rewrite !replay_trace_run.
  unfold accessed_addresses. rewrite flat_map_app, run_app.
  destruct (run g (flat_map addresses_of records)) as [h|]; simpl; [|reflexivity].
  symmetry. apply replay_trace_run.
Qed.

Lemma accessed_addresses_length records :
  Z.of_nat (length (accessed_addresses records)) = accesses_in records.
Proof.
  unfold accessed_addresses. induction records as [|r rest IH]; simpl; [reflexivity|].
  rewrite length_app, Nat2Z.inj_add, IH. f_equal.
  unfold addresses_of, accesses_of.
  destruct (command r) as [[] [] [] [] [] [] [] []]; reflexivity.
Qed.

(** ** The program *)

Lemma main_with_arguments s E b records :
  s ≠ 0 → E ≠ 0 → b ≠ 0 →
  main s E b (Some records)
  = match g ← configure s E b; replay_trace g records with
    | Some g => Summary (total_hits g) (total_misses g) (total_evictions g)
    | None => Undefined
    end.
Proof.
  intros Hs HE Hb. unfold main, missing_argument.
  apply Z.eqb_neq in Hs, HE, Hb. rewrite Hs, HE, Hb. reflexivity.
Qed.

Lemma main_Summary s E b trace_file h m e :
  main s E b trace_file = Summary h m e →
  ∃ records g,
    trace_file = Some records ∧ s ≠ 0 ∧ E ≠ 0 ∧ b ≠ 0 ∧
    0 ≤ s ≤ 30 ∧ 0 ≤ b ≤ 30 ∧
    replay_trace (fresh_cache s E b) records = Some g ∧
    h = total_hits g ∧ m = total_misses g ∧ e = total_evictions g.
Proof.
  unfold main. destruct (missing_argument s E b trace_file) eqn:Hmissing; [discriminate|].
  unfold missing_argument in Hmissing.
  apply orb_false_iff in Hmissing as [Hmissing _].
  apply orb_false_iff in Hmissing as [Hmissing Hb].
  apply orb_false_iff in Hmissing as [Hs HE].
  apply Z.eqb_neq in Hs, HE, Hb.
  destruct trace_file as [records|]; simpl; [|discriminate].
  destruct (configure s E b) as [g0|] eqn:Hconf; simpl; [|discriminate].
  destruct (replay_trace g0 records) as [g|] eqn:Hrun; [|discriminate].
  intros [= <- <- <-]. apply configure_Some in Hconf as (Hs' & Hb' & ->).
  exists records, g. repeat split; try assumption; lia.
Qed.

(** X15. When the program prints a summary, all three option values were
    non-zero and both bit counts at most 30; hits plus misses is the number
    of L and S records plus twice the number of M records; the evictions are
    at most the misses, and the lines still cached, misses minus evictions,
    at most [2 ^ s * E]. *)
Theorem printed_summary_accounts_for_trace s E b trace_file h m e :
  main s E b trace_file = Summary h m e →
  ∃ records,
    trace_file = Some records ∧
    1 ≤ s ≤ 30 ∧ 1 ≤ b ≤ 30 ∧ E ≠ 0 ∧
    h + m = count_records is_load_store records + 2 * count_records is_modify records ∧
    0 ≤ h ≤ INT_MAX ∧ 0 ≤ m ≤ INT_MAX ∧
    0 ≤ e ≤ m ∧
    m - e ≤ 2 ^ s * Z.max 0 E.
Proof.
  intros Hmain.
  apply main_Summary in Hmain
    as (records & g & -> & Hs & HE & Hb & Hs' & Hb' & Hrun & -> & -> & ->).
  assert (configure s E b = Some (fresh_cache s E b)) as Hconf
    by (by apply configure_Some).
  pose proof (reachable_init s E b _ Hconf) as Hreach0.
  pose proof (replay_trace_reachable records _ g Hreach0 Hrun) as Hreach.
  pose proof (reachable_wf g Hreach) as Hwf.
  pose proof (replay_trace_counts records _ g Hrun) as Hsum. simpl in Hsum.
  rewrite replay_trace_run in Hrun.
  destruct (run_same_geometry _ _ g (reachable_wf _ Hreach0) Hrun)
    as (Hgs & _ & HgE & Hgn & _). simpl in Hgs, HgE, Hgn.
  pose proof (reachable_occupancy g Hreach) as Hocc.
  exists records. split; [reflexivity|].
  split; [lia|]. split; [lia|]. split; [assumption|].
  split; [rewrite <- accesses_in_count; lia|].
  split; [apply Hwf|]. split; [apply Hwf|]. split; [apply Hwf|].
  rewrite <- Hocc.
  assert (Forall (λ grp, 0 ≤ valid_lines_in grp ≤ Z.max 0 E) (cache_memory g)) as Hrows.
  { eapply Forall_impl; [apply (wf_cols g Hwf)|]. intros grp Hlen. simpl in Hlen.
    pose proof (valid_lines_in_bounds grp). rewrite HgE in Hlen. lia. }
  pose proof (total_bounds valid_lines_in (cache_memory g) _ Hrows) as Hbound.
  rewrite (wf_rows g Hwf), Hgn in Hbound.
  assert (0 < 2 ^ s) by (apply Z.pow_pos_nonneg; lia).
  rewrite Z2Nat.id in Hbound by lia. unfold valid_lines. lia.
Qed.

Lemma printed_summary_accounts_for_trace_witness :
  ∃ records,
    Some [Lrec 0; Mrec 4; Irec 0; Srec 8] = Some records ∧
    1 + 3 = count_records is_load_store records + 2 * count_records is_modify records.
Proof.
  destruct (printed_summary_accounts_for_trace 1 1 1
              (Some [Lrec 0; Mrec 4; Irec 0; Srec 8]) 1 3 2)
    as (records & Htrace & _ & _ & _ & Hsum & _); [vm_compute; reflexivity|].
  exists records. split; [exact Htrace|exact Hsum].
Defined.

(** X16. Once lines 190 to 193 have completed ([configure] is defined) for
    non-zero bit counts and a positive associativity, and the trace file has
    been opened and holds [records], a trace of at most [INT_MAX] accesses
    is replayed to its end and the program prints the counters that the
    replay leaves. *)
Theorem main_prints_summary_after_initialisation s E b g0 records :
  configure s E b = Some g0 →
  s ≠ 0 → b ≠ 0 → 1 ≤ E →
  count_records is_load_store records + 2 * count_records is_modify records ≤ INT_MAX →
  ∃ g, replay_trace g0 records = Some g ∧
       main s E b (Some records)
       = Summary (total_hits g) (total_misses g) (total_evictions g).
Proof.
  intros Hconf Hs Hb HE Hroom.
  rewrite main_with_arguments by lia. rewrite Hconf. simpl.
  pose proof (configure_wf s E b g0 Hconf) as Hwf.
  apply configure_Some in Hconf as (_ & _ & ->).
  destruct (replay_trace_defined records (fresh_cache s E b)) as [g Hrun].
  - exact Hwf.
  - simpl. lia.
  - simpl. rewrite accesses_in_count. lia.
  - exists g. rewrite Hrun. split; reflexivity.
Qed.

Lemma main_prints_summary_after_initialisation_witness :
  ∃ g, replay_trace (fresh_cache 4 2 4) [Lrec 16; Mrec 32; Srec 16] = Some g ∧
       main 4 2 4 (Some [Lrec 16; Mrec 32; Srec 16])
       = Summary (total_hits g) (total_misses g) (total_evictions g).
Proof.
  apply (main_prints_summary_after_initialisation 4 2 4 (fresh_cache 4 2 4));
    [vm_compute; reflexivity | discriminate | discriminate | lia
    | vm_compute; discriminate].
Defined.

(** X17. Bit counts outside 0 to 30 pass the argument test of [main] but
    make [1 << n] undefined: the program has no defined run. *)
Theorem main_undefined_for_large_bit_counts s E b records :
  s ≠ 0 → E ≠ 0 → b ≠ 0 →
  ¬ (0 ≤ s ≤ 30 ∧ 0 ≤ b ≤ 30) →
  main s E b (Some records) = Undefined.
Proof.
  intros Hs HE Hb Hrange. rewrite main_with_arguments by assumption.
  destruct (configure s E b) as [g|] eqn:Hconf; [|reflexivity].
  apply configure_Some in Hconf as (Hs' & Hb' & _). tauto.
Qed.

Lemma main_undefined_for_large_bit_counts_witness :
  main 31 1 1 (Some [Lrec 0]) = Undefined.
Proof.
  apply main_undefined_for_large_bit_counts; try discriminate. lia.
Defined.

(** X18. A negative associativity passes the argument test too. The sets
    then have no line: the program prints 0 0 0 when the trace has no L, S
    or M record, and has no defined run when it has one. *)
Theorem main_with_negative_associativity s E b records :
  1 ≤ s ≤ 30 → 1 ≤ b ≤ 30 → E < 0 →
  main s E b (Some records)
  = if bool_decide (accessed_addresses records = []) then Summary 0 0 0 else Undefined.
Proof.
  intros Hs Hb HE. rewrite main_with_arguments by lia.
  assert (configure s E b = Some (fresh_cache s E b)) as Hconf
    by (apply configure_Some; repeat split; lia).
  rewrite Hconf. simpl. rewrite replay_trace_run.
  destruct (accessed_addresses records) as [|a rest]; [reflexivity|].
  rewrite bool_decide_eq_false_2 by discriminate. simpl.
  rewrite (access_data_empty_sets (fresh_cache s E b) a).
  - reflexivity.
  - exact (configure_wf s E b _ Hconf).
  - simpl. lia.
Qed.

Lemma main_with_negative_associativity_witness :
  main 1 (-2) 1 (Some [Irec 0; Lrec 0]) = Undefined.
Proof.
  rewrite main_with_negative_associativity; [reflexivity | lia | lia | lia].
Defined.

(** * The option loop *)

Section OptionLoop.
Context (atoi : String.string → Z).

Import CommandLine.

Lemma recognised_cases opt :
  recognised opt = true →
  opt = "s"%char ∨ opt = "E"%char ∨ opt = "b"%char
  ∨ opt = "t"%char ∨ opt = "v"%char.
Proof.
  destruct opt as [[] [] [] [] [] [] [] []]; simpl; try discriminate; tauto.
Qed.

Lemma unrecognised_exit opt optarg rest v :
  recognised opt = false →
  getopt_loop atoi ((opt, optarg) :: rest) v
  = Exit (if Ascii.eqb opt "h" then 0 else 1).
Proof.
  destruct opt as [[] [] [] [] [] [] [] []]; simpl; try discriminate; reflexivity.
Qed.

Lemma getopt_loop_app returned more v :
  getopt_loop atoi (returned ++ more) v
  = match getopt_loop atoi returned v with
    | Exit status => Exit status
    | Parsed v' => getopt_loop atoi more v'
    end.
Proof.
  revert v. induction returned as [|[opt optarg] rest IH]; intros v; [reflexivity|].
  destruct (recognised opt) eqn:Hrec.
  - apply recognised_cases in Hrec as [->|[->|[->|[->| ->]]]]; simpl; apply IH.
  - simpl app. by rewrite !unrecognised_exit.
Qed.

(** When every option is recognised, each variable holds the value of the
    last occurrence of its option, or its former value. *)
Lemma getopt_loop_recognised returned : ∀ v,
  Forall (λ p, recognised (fst p) = true) returned →
  getopt_loop atoi returned v
  = Parsed
      {| verbose_mode := if given "v" returned then 1 else verbose_mode v;
         set_index_bits :=
           from_option atoi (set_index_bits v) (last_optarg "s" returned);
         block_offset_bits :=
           from_option atoi (block_offset_bits v) (last_optarg "b" returned);
         associativity :=
           from_option atoi (associativity v) (last_optarg "E" returned);
         trace_filename :=
           match last_optarg "t" returned with
           | Some name => Some name
           | None => trace_filename v
           end |}.
Proof.
  induction returned as [|[opt optarg] rest IH]; intros v Hall.
  - destruct v; reflexivity.
  - apply Forall_cons in Hall as [Hrec Hall]. simpl in Hrec.
    apply recognised_cases in Hrec as [->|[->|[->|[->| ->]]]];
      simpl; rewrite (IH _ Hall); simpl;
      destruct (last_optarg "s" rest), (last_optarg "b" rest),
               (last_optarg "E" rest), (last_optarg "t" rest), (given "v" rest);
      reflexivity.
Qed.

(** X19. The option loop stops at the first option that is none of s, E, b,
    t and v, whatever follows it: with status 0 when that option is h, with
    status 1 otherwise (as for the '?' that [getopt] returns for an unknown
    option or a missing argument). *)
Theorem option_loop_stops_at_first_other_option before opt optarg after v :
  Forall (λ p, recognised (fst p) = true) before →
  recognised opt = false →
  getopt_loop atoi (before ++ (opt, optarg) :: after) v
  = Exit (if Ascii.eqb opt "h" then 0 else 1).
Proof.
  intros Hbefore Hother. rewrite getopt_loop_app.
  rewrite (getopt_loop_recognised before v Hbefore).
  by apply unrecognised_exit.
Qed.

(** X20. When all options are among s, E, b, t and v the loop falls through
    with each variable set from the last occurrence of its option: their
    order and earlier occurrences do not matter, and a variable whose option
    is absent keeps its initialiser (0, or no file name). *)
Theorem option_loop_keeps_last_occurrence returned :
  Forall (λ p, recognised (fst p) = true) returned →
  getopt_loop atoi returned initial
  = Parsed
      {| verbose_mode := if given "v" returned then 1 else 0;
         set_index_bits := from_option atoi 0 (last_optarg "s" returned);
         block_offset_bits := from_option atoi 0 (last_optarg "b" returned);
         associativity := from_option atoi 0 (last_optarg "E" returned);
         trace_filename := last_optarg "t" returned |}.
Proof.
  intros Hall. rewrite (getopt_loop_recognised returned initial Hall). simpl.
  do 2 f_equal. destruct (last_optarg "t" returned); reflexivity.
Qed.

End OptionLoop.

Lemma option_loop_stops_at_first_other_option_witness :
  CommandLine.getopt_loop sample_atoi Samples.help_after_s CommandLine.initial
  = CommandLine.Exit 0.
Proof.
  apply (option_loop_stops_at_first_other_option sample_atoi
           (firstn 1 Samples.help_after_s) "h"%char _ (skipn 2 Samples.help_after_s)).
  - repeat constructor.
  - reflexivity.
Defined.

Lemma option_loop_keeps_last_occurrence_witness :
  CommandLine.getopt_loop sample_atoi Samples.s_given_twice CommandLine.initial
  = CommandLine.Parsed
      {| CommandLine.verbose_mode := 0; CommandLine.set_index_bits := 3;
         CommandLine.block_offset_bits := 0; CommandLine.associativity := 0;
         CommandLine.trace_filename := Some Samples.file_a |}.
Proof.
  apply (option_loop_keeps_last_occurrence sample_atoi Samples.s_given_twice).
  repeat constructor.
Defined.

(** * The whole program *)

Section Program.
Context (atoi : String.string → Z) (trace_of : String.string → list trace_record).

Import CommandLine.

Lemma main_MissingArgument s E b trace_file :
  main s E b trace_file = MissingArgument
  ↔ missing_argument s E b trace_file = true.
Proof.
  unfold main. destruct (missing_argument s E b trace_file); split;
    try reflexivity; try discriminate.
  destruct (_ ≫= _); discriminate.
Qed.

Lemma missing_argument_true s E b (trace_file : option (list trace_record)) :
  missing_argument s E b trace_file = true
  ↔ s = 0 ∨ E = 0 ∨ b = 0 ∨ trace_file = None.
Proof.
  unfold missing_argument.
  rewrite !orb_true_iff, !Z.eqb_eq, bool_decide_eq_true. tauto.
Qed.

Lemma last_optarg_given opt returned :
  given opt returned = false → last_optarg opt returned = None.
Proof.
  unfold given. induction returned as [|[o optarg] rest IH]; simpl; [reflexivity|].
  intros H. apply orb_false_iff in H as [Ho Hrest].
  rewrite (IH Hrest), Ho. reflexivity.
Qed.

Lemma same_but_verbose_loop returned : ∀ v w,
  same_but_verbose v w →
  match getopt_loop atoi returned v,
        getopt_loop atoi (without_verbose returned) w with
  | Exit status, Exit status' => status = status'
  | Parsed v', Parsed w' => same_but_verbose v' w'
  | _, _ => False
  end.
Proof.
  induction returned as [|[opt optarg] rest IH]; intros v w Hsame; [exact Hsame|].
  destruct Hsame as (Hs & Hb & HE & Ht).
  destruct (recognised opt) eqn:Hrec.
  - apply recognised_cases in Hrec as [->|[->|[->|[->| ->]]]]; simpl;
      apply IH; repeat split; simpl; assumption.
  - assert (Ascii.eqb opt "v" = false) as Hv.
    { destruct opt as [[] [] [] [] [] [] [] []]; simpl in *;
        first [reflexivity | discriminate]. }
    change (without_verbose ((opt, optarg) :: rest))
      with (if negb (Ascii.eqb opt "v")
            then (opt, optarg) :: without_verbose rest else without_verbose rest).
    rewrite Hv. cbn [negb].
    rewrite !unrecognised_exit by assumption. reflexivity.
Qed.

(** X21. The option v changes nothing in what the program does: with the
    occurrences of v removed from the command line, the program ends the
    same way, with the same exit status or the same summary. *)
Theorem verbose_option_changes_nothing returned :
  main_from_options atoi trace_of returned
  = main_from_options atoi trace_of (without_verbose returned).
Proof.
  unfold main_from_options.
  pose proof (same_but_verbose_loop returned initial initial) as Hloop.
  destruct (getopt_loop atoi returned initial) as [status|v];
    destruct (getopt_loop atoi (without_verbose returned) initial) as [status'|w];
    try (exfalso; apply Hloop; repeat split).
  - f_equal. apply Hloop. repeat split.
  - destruct Hloop as (-> & -> & -> & ->); [repeat split|]. reflexivity.
Qed.

(** X22. When all options are among s, E, b, t and v, the program stops with
    the message about a missing argument exactly when the value that [atoi]
    reads for the last s, for the last E or for the last b is 0, an option
    that is absent counting for 0, or when there is no t. In particular a
    command line that lacks one of the four stops there. *)
Theorem missing_or_zero_option_is_reported returned :
  Forall (λ p, recognised (fst p) = true) returned →
  (main_from_options atoi trace_of returned = Continued MissingArgument
   ↔ from_option atoi 0 (last_optarg "s" returned) = 0
     ∨ from_option atoi 0 (last_optarg "E" returned) = 0
     ∨ from_option atoi 0 (last_optarg "b" returned) = 0
     ∨ last_optarg "t" returned = None) ∧
  (given "s" returned = false ∨ given "E" returned = false
   ∨ given "b" returned = false ∨ given "t" returned = false →
   main_from_options atoi trace_of returned = Continued MissingArgument).
Proof.
  intros Hall. unfold main_from_options.
  rewrite (getopt_loop_recognised atoi returned initial Hall). simpl.
  assert (∀ o, Continued o = Continued MissingArgument ↔ o = MissingArgument) as Hinj.
  { intros o. split; [intros [= ->]|intros ->]; reflexivity. }
  rewrite Hinj, main_MissingArgument, missing_argument_true.
  assert (trace_of <$> match last_optarg "t" returned with
                       | Some name => Some name
                       | None => None
                       end = None
          ↔ last_optarg "t" returned = None) as Hfile.
  { destruct (last_optarg "t" returned); simpl; split; intros; congruence. }
  rewrite Hfile. split; [reflexivity|].
  intros [H|[H|[H|H]]]; rewrite (last_optarg_given _ _ H); simpl; tauto.
Qed.

End Program.

Lemma missing_or_zero_option_is_reported_witness :
  main_from_options sample_atoi sample_trace_of Samples.b_missing
  = Continued MissingArgument.
Proof.
  apply (missing_or_zero_option_is_reported sample_atoi sample_trace_of).
  - repeat constructor.
  - right. right. left. reflexivity.
Defined.

Example main_from_options_runs :
  main_from_options sample_atoi sample_trace_of Samples.complete
  = Continued (Summary 1 2 1).
Proof. vm_compute. reflexivity. Qed.

(** * Allocation *)

Section Heap.
Import Allocation.

Lemma live_blocks size pointers : live (blocks size pointers) = reverse pointers.
Proof.
  unfold live, blocks. rewrite fmap_reverse. f_equal.
  induction pointers as [|p rest IH]; simpl; [reflexivity|]. f_equal. exact IH.
Qed.

Lemma filter_not_live p (h : list (nat * Z)) :
  p ∉ live h → List.filter (λ blk, negb (Nat.eqb (fst blk) p)) h = h.
Proof.
  unfold live. induction h as [|[q sz] h IH]; simpl; [reflexivity|].
  intros Hp. apply not_elem_of_cons in Hp as [Hne Hp].
  assert (Nat.eqb q p = false) as -> by (apply Nat.eqb_neq; congruence).
  simpl. by rewrite IH.
Qed.

(** Freeing a live block whose name is used once removes that block. *)
Lemma free_block p size (above below : list (nat * Z)) :
  p ∉ live above → p ∉ live below →
  free p (above ++ (p, size) :: below) = Some (above ++ below).
Proof.
  intros Habove Hbelow. unfold free.
  rewrite bool_decide_eq_true_2.
  - f_equal. rewrite List.filter_app. simpl. rewrite Nat.eqb_refl. simpl.
    by rewrite !filter_not_live.
  - unfold live. rewrite fmap_app. apply elem_of_app. right. simpl.
    apply elem_of_cons. auto.
Qed.

Lemma free_not_live p (h : list (nat * Z)) : p ∉ live h → free p h = None.
Proof. intros Hp. unfold free. by rewrite bool_decide_eq_false_2. Qed.

(** The loop of [init_cache] leaves [iterations] new blocks on the heap, with
    distinct names that were not live before. *)
Lemma init_cache_loop_blocks iterations associativity : ∀ stored h,
  ∃ pointers,
    init_cache_loop iterations associativity stored h
    = (stored ++ pointers,
       blocks (size_of_array sizeof_cache_entry_t associativity) pointers ++ h) ∧
    length pointers = iterations ∧
    NoDup pointers ∧
    ∀ p, p ∈ pointers → (max_list (live h) < p)%nat.
Proof.
  induction iterations as [|k IH]; intros stored h.
  - exists []. simpl. rewrite app_nil_r. repeat split; [constructor|].
    intros p Hp. by apply elem_of_nil in Hp.
  - simpl. set (p := S (max_list (live h))).
    destruct (IH (stored ++ [p])
                 ((p, size_of_array sizeof_cache_entry_t associativity) :: h))
      as (pointers & -> & Hlen & Hnodup & Hnew).
    exists (p :: pointers). split; [|split; [|split]].
    + rewrite <- app_assoc. simpl. f_equal.
      unfold blocks. simpl. rewrite reverse_cons, <- app_assoc. reflexivity.
    + simpl. by rewrite Hlen.
    + apply NoDup_cons. split; [|exact Hnodup].
      intros Hin. apply Hnew in Hin. simpl in Hin. lia.
    + intros q Hq. apply elem_of_cons in Hq as [->|Hq]; [unfold p; lia|].
      apply Hnew in Hq. simpl in Hq. lia.
Qed.

(** The loop of [free_cache] on the pointers that [init_cache] stored. *)
Lemma free_cache_loop_blocks size pointers : ∀ before t (below : list (nat * Z)),
  groups t = before ++ pointers →
  NoDup pointers →
  (∀ p, p ∈ pointers → p ∉ live below) →
  free_cache_loop (length pointers) (length before) t (blocks size pointers ++ below)
  = Some below.
Proof.
  induction pointers as [|p rest IH]; intros before t below Hgroups Hnodup Hnew;
    [reflexivity|].
  apply NoDup_cons in Hnodup as [Hp Hnodup]. simpl.
  rewrite Hgroups, lookup_app_r, Nat.sub_diag by lia. simpl.
  assert (blocks size (p :: rest) ++ below
          = blocks size rest ++ (p, size) :: below) as ->.
  { unfold blocks. simpl. by rewrite reverse_cons, <- app_assoc. }
  rewrite (free_block p size (blocks size rest) below).
  - simpl. replace (S (length before)) with (length (before ++ [p]))
      by (rewrite length_app; simpl; lia).
    apply IH; [by rewrite <- app_assoc|exact Hnodup|].
    intros q Hq. apply Hnew. apply elem_of_cons. auto.
  - rewrite live_blocks. rewrite elem_of_reverse. exact Hp.
  - apply Hnew. apply elem_of_cons. auto.
Qed.

Lemma init_cache_blocks number_of_sets associativity (h : list (nat * Z)) :
  ∃ p pointers,
    init_cache number_of_sets associativity h
    = ({| cache_memory := p; groups := pointers |},
       blocks (size_of_array sizeof_cache_entry_t associativity) pointers
       ++ (p, size_of_array sizeof_cache_group_t number_of_sets) :: h) ∧
    length pointers = Z.to_nat number_of_sets ∧
    NoDup pointers ∧
    (p ∉ live h) ∧ (p ∉ pointers) ∧
    ∀ q, q ∈ pointers → q ∉ live h.
Proof.
  unfold init_cache. simpl. set (p := S (max_list (live h))).
  destruct (init_cache_loop_blocks (Z.to_nat number_of_sets) associativity []
              ((p, size_of_array sizeof_cache_group_t number_of_sets) :: h))
    as (pointers & -> & Hlen & Hnodup & Hnew).
  exists p, pointers. simpl. split; [reflexivity|]. split; [exact Hlen|].
  split; [exact Hnodup|].
  assert (p ∉ live h) as Hp.
  { apply max_list_not_elem_of_gt. unfold p. lia. }
  split; [exact Hp|]. split.
  - intros Hin. apply Hnew in Hin. simpl in Hin. lia.
  - intros q Hq. apply max_list_not_elem_of_gt.
    apply Hnew in Hq. simpl in Hq. lia.
Qed.

Lemma free_cache_after_init_cache number_of_sets associativity (h : list (nat * Z)) :
  free_cache number_of_sets
    (fst (init_cache number_of_sets associativity h))
    (snd (init_cache number_of_sets associativity h))
  = Some h.
Proof.
  destruct (init_cache_blocks number_of_sets associativity h)
    as (p & pointers & -> & Hlen & Hnodup & Hp & Hpp & Hnew).
  unfold free_cache. simpl. rewrite <- Hlen.
  rewrite (free_cache_loop_blocks _ pointers []
             {| cache_memory := p; groups := pointers |} _ eq_refl Hnodup).
  - simpl. apply (free_block p _ [] h); [|exact Hp].
    intros Hin. by apply elem_of_nil in Hin.
  - intros q Hq. unfold live. simpl. apply not_elem_of_cons. split.
    + intros ->. exact (Hpp Hq).
    + exact (Hnew q Hq).
Qed.

(** X24. Calling [free_cache] a second time is undefined: its first [free]
    is of a block that the first call released. *)
Theorem free_cache_twice_is_undefined
    number_of_sets associativity (h : list (nat * Z)) :
  (h1 ← free_cache number_of_sets
          (fst (init_cache number_of_sets associativity h))
          (snd (init_cache number_of_sets associativity h));
   free_cache number_of_sets (fst (init_cache number_of_sets associativity h)) h1)
  = None.
Proof.
  rewrite free_cache_after_init_cache. simpl.
  destruct (init_cache_blocks number_of_sets associativity h)
    as (p & pointers & -> & Hlen & _ & Hp & _ & Hnew).
  unfold free_cache. simpl. rewrite <- Hlen.
  destruct pointers as [|q rest]; simpl.
  - by rewrite (free_not_live p h Hp).
  - rewrite (free_not_live q h); [reflexivity|].
    apply Hnew. apply elem_of_cons. auto.
Qed.

End Heap.

Example init_cache_then_free_cache :
  Allocation.init_cache 2 1 [(7%nat, 100)]
  = ({| Allocation.cache_memory := 8; Allocation.groups := [9; 10]%nat |},
     [(10%nat, 24); (9%nat, 24); (8%nat, 16); (7%nat, 100)]).
Proof. vm_compute. reflexivity. Qed.

(** * Hits, misses and the contents of the cache *)

Lemma cached_dec g a : cached g a ∨ ¬ cached g a.
Proof.
  unfold cached. destruct (target_set g a) as [grp|] eqn:Hgrp.
  - destruct (absent_dec (tag_of g a) grp) as [Habs|(i & e & He & Hholds)].
    + right. intros (grp' & i & e & [= <-] & He & Hholds). exact (Habs i e He Hholds).
    + left. eauto 6.
  - right. intros (grp' & _ & _ & Hnone & _). discriminate.
Qed.

(** X25. A defined access is a hit exactly when its address is cached, and a
    miss exactly when it is not; either way the address is cached
    afterwards, so that an access to the same address right after it hits. *)
Theorem access_hits_iff_cached g a g' :
  reachable g →
  access_data g a = Some g' →
  (total_hits g' = total_hits g + 1 ↔ cached g a) ∧
  (total_misses g' = total_misses g + 1 ↔ ¬ cached g a) ∧
  cached g' a.
Proof.
  intros Hreach Hacc. pose proof (reachable_wf g Hreach) as Hwf.
  split; [|split; [|exact (access_data_installs g a g' Hwf Hacc)]];
    destruct (access_data_wf_inv g a g' Hwf Hacc) as (grp & Hgrp & Hcases);
    destruct Hcases as [(i & e & He & Hholds & _ & ->)
                       |(m & v & victim & Habs & _ & _ & _ & _ & ->)]; simpl.
  - split; [intros _; exists grp, i, e; auto|reflexivity].
  - split; [lia|].
    intros (grp' & i & e & Hgrp' & He & Hholds).
    assert (grp' = grp) as -> by congruence. destruct (Habs i e He Hholds).
  - split; [lia|]. intros Hnot. exfalso. apply Hnot. exists grp, i, e. auto.
  - split; [|reflexivity]. intros _ (grp' & i & e & Hgrp' & He & Hholds).
    assert (grp' = grp) as -> by congruence. exact (Habs i e He Hholds).
Qed.

Lemma access_hits_iff_cached_witness :
  (total_hits two_way_cache_evicted = total_hits two_way_cache_warm + 1
   ↔ cached two_way_cache_warm 8) ∧
  (total_misses two_way_cache_evicted = total_misses two_way_cache_warm + 1
   ↔ ¬ cached two_way_cache_warm 8) ∧
  cached two_way_cache_evicted 8.
Proof.
  apply (access_hits_iff_cached two_way_cache_warm 8 two_way_cache_evicted).
  - exact two_way_cache_warm_reachable.
  - vm_compute. reflexivity.
Defined.

(** ** Eviction after enough other blocks *)

Lemma outlives_after_access g a g1 :
  wf g → access_data g a = Some g1 →
  outlives g a (global_lru_counter g) [] g1.
Proof.
  intros Hwf Hacc.
  destruct (access_data_summary g a g1 Hwf Hacc)
    as (grp & j & new & Hgrp & Hj & Hmem & Hnew & Hstamp & Hclock & Hgeo & Hkind).
  destruct (same_geometry_decode g g1 a Hgeo) as [Hidx _].
  split; [exact Hgeo|]. split; [lia|].
  exists (<[j := new]> grp). split.
  { unfold target_set. rewrite Hidx, Hmem. apply list_lookup_insert_eq.
    exact (lookup_lt_Some _ _ _ Hgrp). }
  split.
  - intros k e Hk [Hvalid Htag].
    apply list_lookup_insert_Some in Hk as [(_ & <- & _)|[Hne Hk]]; [exact Hstamp|].
    exfalso. destruct Hkind as [(e' & He' & [Hv' Ht'])|[Habs _]].
    + apply Hne.
      apply (Forall_lookup_1 _ _ _ _ (wf_tags g Hwf) Hgrp j k e' e); congruence.
    + apply (Habs k e Hk). split; assumption.
  - intros _ t Ht. by apply elem_of_nil in Ht.
Qed.

Lemma outlives_step g a t0 seen h a' h' :
  wf h → outlives g a t0 seen h →
  access_data h a' = Some h' →
  ¬ (set_index_of g a' = set_index_of g a ∧ tag_of g a' = tag_of g a) →
  outlives g a t0 (seen ++ tags_in_set_of g a [a']) h'.
Proof.
  intros Hwf (Hgeo & Ht0 & grp & Hgrp & Hstamp0 & Hseen) Hacc Hblock.
  destruct (access_data_summary h a' h' Hwf Hacc)
    as (grp' & j & new & Hgrp' & Hj & Hmem & Hnew & Hstamp & Hclock & Hgeo' & Hkind).
  pose proof (same_geometry_trans g h h' Hgeo Hgeo') as Hgeo2.
  destruct (same_geometry_decode g h a Hgeo) as [Hidx Htag].
  destruct (same_geometry_decode g h a' Hgeo) as [Hidx' Htag'].
  destruct (same_geometry_decode g h' a Hgeo2) as [Hidx2 _].
  pose proof (set_index_of_range h a Hwf) as Hra.
  pose proof (set_index_of_range h a' Hwf) as Hra'.
  split; [exact Hgeo2|]. split; [lia|].
  unfold tags_in_set_of. simpl.
  destruct (Z.eqb_spec (set_index_of g a') (set_index_of g a)) as [Hsame|Hother].
  - (* the access goes to the set of [a], with another tag *)
    assert (tag_of g a' ≠ tag_of g a) as Hdiff by tauto.
    assert (grp' = grp) as ->.
    { unfold target_set in Hgrp, Hgrp'.
      rewrite Hidx', Hsame, <- Hidx in Hgrp'. congruence. }
    exists (<[j := new]> grp). split.
    { unfold target_set. rewrite Hidx2, <- Hsame, <- Hidx', Hmem.
      apply list_lookup_insert_eq. exact (lookup_lt_Some _ _ _ Hgrp'). }
    assert (∀ k e, <[j := new]> grp !! k = Some e → holds_tag (tag_of g a) e →
                   k ≠ j ∧ grp !! k = Some e) as Hold.
    { intros k e Hk [_ Htk].
      apply list_lookup_insert_Some in Hk as [(_ & <- & _)|[Hne Hk]]; [|auto].
      exfalso. apply Hdiff. destruct Hnew as [_ Htn]. congruence. }
    split.
    + intros k e Hk Hholds. destruct (Hold k e Hk Hholds) as [_ Hk'].
      exact (Hstamp0 k e Hk' Hholds).
    + intros (k & e & Hk & Hholds) t Ht. simpl in Ht.
      destruct (Hold k e Hk Hholds) as [Hkj Hk'].
      apply elem_of_app in Ht as [Ht|Ht].
      * destruct (Hseen ltac:(eauto) t Ht) as (kt & et & Hkt & Hht & Hlater).
        destruct (decide (kt = j)) as [->|Hne].
        -- exists j, new. split; [by apply list_lookup_insert_eq|].
           destruct Hkind as [(e' & He' & [_ Hte'])|[_ Hleast]].
           ++ assert (e' = et) as -> by congruence.
              destruct Hht as [_ Htt]. destruct Hnew as [Hvn Htn].
              split; [split; [exact Hvn|congruence]|lia].
           ++ exfalso. destruct Hleast as (victim & Hv & Hmin & _).
              assert (victim = et) as -> by congruence.
              pose proof (Hmin k e Hk'). pose proof (Hstamp0 k e Hk' Hholds). lia.
        -- exists kt, et. split; [by rewrite list_lookup_insert_ne|]. auto.
      * apply list_elem_of_singleton in Ht as ->.
        exists j, new. split; [by apply list_lookup_insert_eq|].
        destruct Hnew as [Hvn Htn]. split; [split; [exact Hvn|congruence]|lia].
  - (* the access goes to another set *)
    exists grp. split.
    { unfold target_set. rewrite Hidx2, <- Hidx, Hmem.
      rewrite list_lookup_insert_ne; [exact Hgrp|].
      intros Heq. apply Hother. rewrite <- Hidx, <- Hidx'. lia. }
    split; [exact Hstamp0|].
    intros Hcached t Ht. simpl in Ht. rewrite app_nil_r in Ht.
    exact (Hseen Hcached t Ht).
Qed.

Lemma tags_in_set_of_cons g a a' rest :
  tags_in_set_of g a (a' :: rest)
  = tags_in_set_of g a [a'] ++ tags_in_set_of g a rest.
Proof.
  unfold tags_in_set_of. simpl.
  destruct (set_index_of g a' =? set_index_of g a); reflexivity.
Qed.

Lemma outlives_run g a t0 addresses : ∀ seen h h',
  wf h → outlives g a t0 seen h →
  run h addresses = Some h' →
  (∀ a', a' ∈ addresses →
         ¬ (set_index_of g a' = set_index_of g a ∧ tag_of g a' = tag_of g a)) →
  outlives g a t0 (seen ++ tags_in_set_of g a addresses) h'.
Proof.
  induction addresses as [|a' rest IH]; intros seen h h' Hwf Hout; simpl.
  - intros [= <-] _. unfold tags_in_set_of. simpl. by rewrite app_nil_r.
  - intros Hrun Hblock. apply bind_Some in Hrun as (h1 & Hacc & Hrest).
    rewrite tags_in_set_of_cons, app_assoc.
    apply (IH _ h1 h'); try assumption.
    + exact (access_data_wf h a' h1 Hwf Hacc).
    + apply (outlives_step g a t0 seen h a' h1); try assumption.
      apply Hblock. apply elem_of_cons. auto.
    + intros a'' Hin. apply Hblock. apply elem_of_cons. auto.
Qed.

(** X26. A block leaves the cache once [associativity] distinct other blocks
    of its set have been accessed after it. Precisely: after an access to
    [a], let a sequence of accesses follow, none of them to the block of
    [a]; when the tags of those that go to the set of [a] include at least
    [associativity] distinct ones, [a] is not cached at the end, and the
    next access to [a], if defined, is a miss. *)
Theorem block_is_evicted_after_enough_others g a g1 addresses g2 (D : list Z) :
  reachable g →
  access_data g a = Some g1 →
  run g1 addresses = Some g2 →
  (∀ a', a' ∈ addresses →
         ¬ (set_index_of g a' = set_index_of g a ∧ tag_of g a' = tag_of g a)) →
  NoDup D →
  (∀ t, t ∈ D → t ∈ tags_in_set_of g a addresses) →
  associativity g ≤ Z.of_nat (length D) →
  ¬ cached g2 a ∧
  ∀ g3, access_data g2 a = Some g3 → total_misses g3 = total_misses g2 + 1.
Proof.
  intros Hreach Hacc Hrun Hblock Hnodup HD Hsize.
  pose proof (reachable_wf g Hreach) as Hwf.
  pose proof (access_data_wf g a g1 Hwf Hacc) as Hwf1.
  pose proof (run_wf addresses g1 g2 Hwf1 Hrun) as Hwf2.
  pose proof (outlives_after_access g a g1 Hwf Hacc) as Hout1.
  destruct (outlives_run g a _ addresses [] g1 g2 Hwf1 Hout1 Hrun Hblock)
    as (Hgeo & _ & grp & Hgrp & Hstamp0 & Hseen).
  destruct (same_geometry_decode g g2 a Hgeo) as [_ Htag].
  assert (¬ cached g2 a) as Hnot.
  { intros (grp' & i & e & Hgrp' & Hi & Hholds).
    assert (grp' = grp) as -> by congruence. rewrite Htag in Hholds.
    pose proof (Hstamp0 i e Hi Hholds) as Hti.
    assert (NoDup (tag_of g a :: D)) as Hnodup'.
    { apply NoDup_cons. split; [|exact Hnodup]. intros Hin.
      destruct (Hseen ltac:(eauto) _ (HD _ Hin)) as (k & e' & Hk & Hholds' & Hlater).
      pose proof (Hstamp0 k e' Hk Hholds'). lia. }
    assert (tag_of g a :: D ⊆+ tag_value <$> grp) as Hsub.
    { apply NoDup_submseteq; [exact Hnodup'|].
      intros t Ht. apply list_elem_of_fmap.
      apply elem_of_cons in Ht as [->|Ht].
      - exists e. split; [symmetry; apply Hholds|].
        apply list_elem_of_lookup. eauto.
      - destruct (Hseen ltac:(eauto) _ (HD _ Ht)) as (k & e' & Hk & [_ Hte'] & _).
        exists e'. split; [congruence|]. apply list_elem_of_lookup. eauto. }
    apply submseteq_length in Hsub. rewrite length_fmap in Hsub. simpl in Hsub.
    pose proof (wf_group_length g2 a grp Hwf2 Hgrp) as Hlen.
    destruct Hgeo as (_ & _ & HE & _). lia. }
  split; [exact Hnot|].
  intros g3 Hacc3.
  destruct (access_data_wf_inv g2 a g3 Hwf2 Hacc3) as (grp' & Hgrp' & Hcases).
  destruct Hcases as [(i & e & He & Hholds & _ & ->)
                     |(m & v & victim & _ & _ & _ & _ & _ & ->)]; [|reflexivity].
  exfalso. apply Hnot. exists grp', i, e. auto.
Qed.

Lemma block_is_evicted_after_enough_others_witness :
  ∃ g2, run two_way_cache_evicted [16; 3; 20] = Some g2 ∧ ¬ cached g2 8.
Proof.
  eexists. split; [vm_compute; reflexivity|].
  eapply (block_is_evicted_after_enough_others two_way_cache_warm 8
            two_way_cache_evicted [16; 3; 20] _ [4; 5]).
  - exact two_way_cache_warm_reachable.
  - vm_compute. reflexivity.
  - vm_compute. reflexivity.
  - intros a' Hin [Hset Htag].
    apply elem_of_cons in Hin as [->|Hin]; [vm_compute in Htag; discriminate|].
    apply elem_of_cons in Hin as [->|Hin]; [vm_compute in Hset; discriminate|].
    apply elem_of_cons in Hin as [->|Hin]; [vm_compute in Htag; discriminate|].
    apply elem_of_nil in Hin. destruct Hin.
  - apply NoDup_cons. split; [|apply NoDup_singleton].
    intros Hin. apply list_elem_of_singleton in Hin. discriminate.
  - intros t Ht. vm_compute. 
    apply elem_of_cons in Ht as [->|Ht]; [apply elem_of_cons; auto|].
    apply list_elem_of_singleton in Ht as ->.
    apply elem_of_cons. right. apply elem_of_cons. auto.
  - vm_compute. discriminate.
Defined.

(** * Allocation when [malloc] can fail *)

Section FailingMalloc.
Context (available : Z → list (nat * Z) → bool).

Import Storage.

Lemma malloc_cases size (h : list (nat * Z)) :
  (∃ p, malloc available size h = (Some p, (p, size) :: h) ∧
        (max_list (Allocation.live h) < p)%nat)
  ∨ malloc available size h = (None, h).
Proof.
  unfold malloc. destruct (available size h); [left|right; reflexivity].
  eexists. split; [reflexivity|]. lia.
Qed.

(** When the loop of [init_cache] completes, the blocks it added are those
    of the pointers it stored that are not NULL, all new and distinct. *)
Lemma storage_init_cache_loop_blocks iterations associativity cache_memory :
  ∀ stored h result h',
  init_cache_loop available iterations associativity cache_memory stored h
  = Some (result, h') →
  ∃ pointers,
    result = stored ++ pointers ∧
    h' = Allocation.blocks
           (Allocation.size_of_array Allocation.sizeof_cache_entry_t associativity)
           (non_null pointers) ++ h ∧
    length pointers = iterations ∧
    NoDup (non_null pointers) ∧
    (∀ p, p ∈ non_null pointers → (max_list (Allocation.live h) < p)%nat) ∧
    (pointers ≠ [] → cache_memory ≠ None).
Proof.
  induction iterations as [|k IH]; intros stored h result h'; simpl.
  - intros [= <- <-]. exists []. rewrite app_nil_r.
    repeat split; [constructor| |congruence].
    intros p Hp. by apply elem_of_nil in Hp.
  - set (size := Allocation.size_of_array Allocation.sizeof_cache_entry_t associativity).
    destruct (malloc_cases size h) as [(p & -> & Hp)| ->];
      destruct cache_memory as [c|]; try discriminate.
    + intros Hloop.
      destruct (IH _ _ _ _ Hloop) as (pointers & -> & -> & Hlen & Hnodup & Hnew & _).
      exists (Some p :: pointers). split; [by rewrite <- app_assoc|].
      split; [|split; [simpl; by rewrite Hlen|split; [|split]]].
      * unfold non_null, Allocation.blocks. simpl.
        by rewrite reverse_cons, <- app_assoc.
      * unfold non_null. simpl. apply NoDup_cons. split; [|exact Hnodup].
        intros Hin. apply Hnew in Hin. simpl in Hin. lia.
      * unfold non_null. simpl. intros q Hq.
        apply elem_of_cons in Hq as [->|Hq]; [exact Hp|].
        apply Hnew in Hq. simpl in Hq. lia.
      * discriminate.
    + destruct (0 <? associativity); [discriminate|]. intros Hloop.
      destruct (IH _ _ _ _ Hloop) as (pointers & -> & -> & Hlen & Hnodup & Hnew & _).
      exists (None :: pointers). split; [by rewrite <- app_assoc|].
      split; [reflexivity|]. split; [simpl; by rewrite Hlen|].
      split; [exact Hnodup|]. split; [exact Hnew|discriminate].
Qed.

(** The loop of [free_cache] on the pointers that [init_cache] stored. *)
Lemma storage_free_cache_loop_blocks size pointers :
  ∀ before t (below : list (nat * Z)),
  groups t = before ++ pointers →
  (pointers ≠ [] → cache_memory t ≠ None) →
  NoDup (non_null pointers) →
  (∀ p, p ∈ non_null pointers → p ∉ Allocation.live below) →
  free_cache_loop (length pointers) (length before) t
    (Allocation.blocks size (non_null pointers) ++ below)
  = Some below.
Proof.
  induction pointers as [|q rest IH]; intros before t below Hgroups Htable Hnodup Hnew;
    [reflexivity|].
  simpl. destruct (cache_memory t) as [c|] eqn:Hc; [|by destruct Htable].
  rewrite Hgroups, lookup_app_r, Nat.sub_diag by lia. simpl.
  assert (∀ l, free_cache_loop (length rest) (S (length before)) t l
               = free_cache_loop (length rest) (length (before ++ [q])) t l) as Hindex.
  { intros l. by rewrite length_app, Nat.add_1_r. }
  destruct q as [p|]; unfold non_null in *; simpl in *.
  - apply NoDup_cons in Hnodup as [Hp Hnodup].
    assert (Allocation.blocks size (p :: omap id rest) ++ below
            = Allocation.blocks size (omap id rest) ++ (p, size) :: below) as ->.
    { unfold Allocation.blocks. simpl. by rewrite reverse_cons, <- app_assoc. }
    rewrite (free_block p size (Allocation.blocks size (omap id rest)) below).
    + simpl. rewrite Hindex. apply IH; [by rewrite <- app_assoc|congruence|exact Hnodup|].
      intros r Hr. apply Hnew. apply elem_of_cons. auto.
    + rewrite live_blocks, elem_of_reverse. exact Hp.
    + apply Hnew. apply elem_of_cons. auto.
  - rewrite Hindex. apply IH; [by rewrite <- app_assoc|congruence|exact Hnodup|exact Hnew].
Qed.

(** X23. Whatever requests [malloc] refuses: when [init_cache] completes
    (it stores and writes through no NULL pointer), the blocks it has added
    to the heap are those of the pointers among [cache_memory] and
    [cache_memory[0 .. number_of_sets - 1]] that are not NULL, and
    [free_cache] frees exactly these, each once, which leaves the heap as
    it was before [init_cache]. *)
Theorem free_cache_releases_every_allocated_block
    number_of_sets associativity (h : list (nat * Z)) t h' :
  init_cache available number_of_sets associativity h = Some (t, h') →
  length (groups t) = Z.to_nat number_of_sets ∧
  length h' = (length h + length (non_null (cache_memory t :: groups t)))%nat ∧
  free_cache number_of_sets t h' = Some h.
Proof.
  unfold init_cache.
  set (size := Allocation.size_of_array Allocation.sizeof_cache_group_t number_of_sets).
  destruct (malloc_cases size h) as [(p & -> & Hp)| ->]; intros Hinit;
    apply bind_Some in Hinit as ([stored h2] & Hloop & [= <- <-]);
    apply storage_init_cache_loop_blocks in Hloop
      as (pointers & -> & -> & Hlen & Hnodup & Hnew & Htable);
    simpl in *; (split; [exact Hlen|]).
  - split.
    { unfold non_null. simpl. rewrite length_app. unfold Allocation.blocks.
      rewrite length_reverse, length_fmap. simpl. lia. }
    unfold free_cache. simpl. rewrite <- Hlen.
    rewrite (storage_free_cache_loop_blocks _ pointers []
               {| cache_memory := Some p; groups := pointers |} _ eq_refl);
      [| discriminate | exact Hnodup |].
    + simpl. apply (free_block p _ [] h).
      * intros Hin. by apply elem_of_nil in Hin.
      * apply max_list_not_elem_of_gt. exact Hp.
    + intros q Hq. apply max_list_not_elem_of_gt. exact (Hnew q Hq).
  - split.
    { unfold non_null. simpl. rewrite length_app. unfold Allocation.blocks.
      rewrite length_reverse, length_fmap. lia. }
    unfold free_cache. simpl. rewrite <- Hlen.
    rewrite (storage_free_cache_loop_blocks _ pointers []
               {| cache_memory := None; groups := pointers |} _ eq_refl);
      [reflexivity | exact Htable | exact Hnodup |].
    intros q Hq. apply max_list_not_elem_of_gt. exact (Hnew q Hq).
Qed.

End FailingMalloc.

Lemma free_cache_releases_every_allocated_block_witness :
  length (Storage.groups
            {| Storage.cache_memory := Some 8%nat; Storage.groups := [None; None] |})
  = Z.to_nat 2 ∧
  length [(8%nat, 16); (7%nat, 100)] = (1 + 1)%nat ∧
  Storage.free_cache 2
    {| Storage.cache_memory := Some 8%nat; Storage.groups := [None; None] |}
    [(8%nat, 16); (7%nat, 100)]
  = Some [(7%nat, 100)].
Proof.
  apply (free_cache_releases_every_allocated_block Storage.up_to_ptrdiff_max
           2 (-1) [(7%nat, 100)]).
  vm_compute. reflexivity.
Defined.
